(** * Flood control: a per-key sliding-window limiter

    Shallow embedding of [main.go]: the [FloodControlImpl] structure, its
    constructor [NewFloodControl] and its single operation [Check], followed
    by the properties of the admission decision.

    Modelling choices, all read off the source:
    - [time.Now()] is the only input [Check] takes from its environment; the
      instant it reads is an explicit argument [now] of the model.
    - [fc.mu] is held for the whole body of [Check], so one call is one
      atomic step of the state.
    - [fc.requests] is a [map[int64]*list.List]; every list object is
      reachable from exactly one key, so the map is modelled as a finite map
      from keys to sequences.  The loop of [Check] removes elements from the
      list object itself: when that object is the one stored in the map, the
      removals are visible in the map whatever [Check] returns.
    - an element of a [list.List] is an [any]; [Check] asserts that it is a
      [time.Time] and fails otherwise.  The model keeps both kinds of
      element. *)

From stdpp Require Import gmap list sorting strings.
From Stdlib Require Import ZArith Lia.

Local Open Scope Z_scope.

(** ** The part of package [time] that [Check] uses *)

Module time.

(** An instant, as the monotonic clock reading (in nanoseconds) that
    [time.Now()] attaches to it. *)
Definition Time : Type := Z.

(** A [time.Duration] is a signed 64-bit count of nanoseconds. *)
Definition Duration : Type := Z.

Definition minDuration : Duration := - 2 ^ 63.
Definition maxDuration : Duration := 2 ^ 63 - 1.

(** [t.Sub(u)] is the duration [t - u]; when it does not fit a
    [Duration], the maximum (or minimum) duration is returned. *)
Definition Sub (t u : Time) : Duration :=
  Z.max minDuration (Z.min maxDuration (t - u)).

End time.

Abbreviation Time := time.Time.
Abbreviation Duration := time.Duration.

(** ** Data model *)

(** What a [list.Element] can hold: a [time.Time], or a value of some other
    dynamic type. *)
Inductive any : Type :=
| TimeValue (t : Time)
| OtherValue (tag : Z).

(** The type assertion [front.Value.(time.Time)]. *)
Definition asTime (v : any) : option Time :=
  match v with
  | TimeValue t => Some t
  | OtherValue _ => None
  end.

(** The two errors [Check] constructs with [errors.New]. *)
Inductive error : Type :=
| ErrNotTime          (* "в очереди хранится не время" *)
| ErrLimitExceeded.   (* "превышено максимальное количество запросов" *)

Record FloodControlImpl : Type := mkFloodControl {
  requests : gmap Z (list any);
  timeInterval : Duration;
  maxRequests : Z
}.

Definition NewFloodControl (timeInterval : Duration) (maxRequests : Z)
  : FloodControlImpl :=
  {| requests := ∅; timeInterval := timeInterval; maxRequests := maxRequests |}.

(** The log of a key: the stored list, or the fresh empty list that [Check]
    makes when the map has none. *)
Definition requestTimes (fc : FloodControlImpl) (userID : Z) : list any :=
  default [] (requests fc !! userID).

(** ** The operation *)

(** The loop of [Check]: walk from the front, stop with an error on an
    element that is not a time, stop at the first time that is at most
    [timeInterval] old, remove every element passed on the way.  The result
    is what is left of the list and whether the loop ended without the
    type error. *)
Fixpoint evict (timeInterval : Duration) (now : Time) (l : list any)
  : list any * bool :=
  match l with
  | [] => ([], true)
  | front :: next =>
      match asTime front with
      | None => (l, false)
      | Some value =>
          if time.Sub now value <=? timeInterval then (l, true)
          else evict timeInterval now next
      end
  end.

(** What the map holds for [userID] once the loop has run on the list
    object of that key and [Check] returns without storing anything: the
    stored object with its front removed, or still nothing when the list was
    the fresh one. *)
Definition afterEviction (m : gmap Z (list any)) (userID : Z)
    (rest : list any) : gmap Z (list any) :=
  match m !! userID with
  | Some _ => <[userID := rest]> m
  | None => m
  end.

Definition setRequests (fc : FloodControlImpl) (m : gmap Z (list any))
  : FloodControlImpl :=
  {| requests := m; timeInterval := timeInterval fc;
     maxRequests := maxRequests fc |}.

(** [fc.Check(ctx, userID)] at the instant [now]: the returned pair and the
    limiter afterwards.  [ctx] is not used by the source. *)
Definition Check (fc : FloodControlImpl) (now : Time) (userID : Z)
  : (bool * option error) * FloodControlImpl :=
  match evict (timeInterval fc) now (requestTimes fc userID) with
  | (rest, false) =>
      ((false, Some ErrNotTime),
       setRequests fc (afterEviction (requests fc) userID rest))
  | (rest, true) =>
      if Z.of_nat (length rest) >=? maxRequests fc then
        ((false, Some ErrLimitExceeded),
         setRequests fc (afterEviction (requests fc) userID rest))
      else
        ((true, None),
         setRequests fc (<[userID := rest ++ [TimeValue now]]> (requests fc)))
  end.

Definition admitted (r : bool * option error) : bool := fst r.

(** ** Sequences of calls *)

(** One call: the instant read by [time.Now()] and the key. *)
Definition call : Type := Time * Z.

(** One call with what it returned. *)
Definition event : Type := call * (bool * option error).

(** Successive calls on one limiter. *)
Fixpoint run (fc : FloodControlImpl) (calls : list call)
  : list event * FloodControlImpl :=
  match calls with
  | [] => ([], fc)
  | c :: calls' =>
      let r := Check fc (fst c) (snd c) in
      let rs := run (snd r) calls' in
      ((c, fst r) :: fst rs, snd rs)
  end.

(** The instants at which events of key [userID] were admitted, oldest
    first. *)
Fixpoint admittedAt (userID : Z) (events : list event) : list Time :=
  match events with
  | [] => []
  | (c, r) :: events' =>
      if decide (snd c = userID) then
        if admitted r then fst c :: admittedAt userID events'
        else admittedAt userID events'
      else admittedAt userID events'
  end.

(** What the calls on key [userID] returned, in order. *)
Fixpoint outcomesOf (userID : Z) (events : list event)
  : list (bool * option error) :=
  match events with
  | [] => []
  | (c, r) :: events' =>
      if decide (snd c = userID) then r :: outcomesOf userID events'
      else outcomesOf userID events'
  end.

(** The limiters that [NewFloodControl] and [Check] can produce. *)
Inductive reachable (window : Duration) (limit : Z)
  : FloodControlImpl → Prop :=
| reachable_new : reachable window limit (NewFloodControl window limit)
| reachable_check fc now userID :
    reachable window limit fc →
    reachable window limit (snd (Check fc now userID)).

(** Successive clock reads do not go back. *)
Definition clockMonotone (calls : list call) : Prop :=
  StronglySorted Z.le (fst <$> calls).

(** ** Predicates on logs *)

(** Every element is a time. *)
Definition allTimes (l : list any) : Prop :=
  Forall (λ v, is_Some (asTime v)) l.

(** The times of a log, front to back (elements of another type are
    skipped). *)
Definition timesOf (l : list any) : list Time := omap asTime l.

(** A log is chronological: only times, non-decreasing front to back. *)
Definition chronological (l : list any) : Prop :=
  allTimes l ∧ StronglySorted Z.le (timesOf l).

(** An entry is stale at [now]: it is more than [window] old. *)
Definition stale (window : Duration) (now t : Time) : bool :=
  negb (time.Sub now t <=? window).

(** Eviction as the specification words it: remove every stale entry,
    wherever it is in the log. *)
Definition evictAllStale (window : Duration) (now : Time) (ts : list Time)
  : list Time :=
  filter (λ t, stale window now t = false) ts.

(** The entries of [ts] within the trailing [window] from [now]. *)
Definition withinWindow (window : Duration) (now : Time) (ts : list Time)
  : list Time :=
  filter (λ t, time.Sub now t ≤ window) ts.

(** ** Predicates on limiters *)

(** Every log holds times only. *)
Definition wellTyped (fc : FloodControlImpl) : Prop :=
  ∀ userID, allTimes (requestTimes fc userID).

(** No log is longer than [maxRequests] allows. *)
Definition bounded (fc : FloodControlImpl) : Prop :=
  ∀ userID,
    Z.of_nat (length (requestTimes fc userID)) ≤ Z.max 0 (maxRequests fc).

(** Every log is chronological and holds no instant after [last], the
    latest clock read. *)
Definition chronologicalUpTo (last : Time) (fc : FloodControlImpl) : Prop :=
  ∀ userID,
    chronological (requestTimes fc userID) ∧
    Forall (λ t, t ≤ last) (timesOf (requestTimes fc userID)).

(** Two limiters agree on a key: same configuration, same stored log. *)
Definition agreeOn (userID : Z) (fc1 fc2 : FloodControlImpl) : Prop :=
  requests fc1 !! userID = requests fc2 !! userID ∧
  timeInterval fc1 = timeInterval fc2 ∧
  maxRequests fc1 = maxRequests fc2.

(** The admissions [history] of a key are accounted for by its log: the
    log holds the latest ones, and the ones it no longer holds are stale at
    [last]. *)
Definition accounted (window : Duration) (last : Time)
    (fc : FloodControlImpl) (userID : Z) (history : list Time) : Prop :=
  ∃ removed,
    history = removed ++ timesOf (requestTimes fc userID) ∧
    Forall (λ t, stale window last t = true) removed.

(** The latest clock read after [calls], [start] when there is none. *)
Fixpoint lastRead (start : Time) (calls : list call) : Time :=
  match calls with
  | [] => start
  | c :: calls' => lastRead (fst c) calls'
  end.

(** ** Bursts *)

(** The instants of the calls made on key [userID], in order. *)
Definition callsOf (userID : Z) (calls : list call) : list Time :=
  fst <$> filter (λ c, snd c = userID) calls.

(** What [n] calls return when the log has room for [room] more entries
    and nothing leaves the window meanwhile. *)
Definition burstOutcomes (room n : nat) : list (bool * option error) :=
  replicate (min room n) (true, None) ++
  replicate (n - room) (false, Some ErrLimitExceeded).

(** ** The harness: [main] *)

(** Arithmetic on [int64] and [time.Duration] wraps around. *)
Definition wrap64 (z : Z) : Z := (z + 2 ^ 63) mod 2 ^ 64 - 2 ^ 63.

(** [time.Second]. *)
Definition second : Duration := 1000000000.

(** What [main] prints: its five fixed messages, and the pair returned by
    [Check] that the loop prints with [fmt.Println]. *)
Inductive line : Type :=
| Usage                  (* "Использование: go run main.go ..." *)
| SecondsNotInteger      (* "... Количество секунд должно быть целочисленным" *)
| SecondsNotPositive     (* "... Количество секунд должно быть положительным" *)
| RequestsNotInteger     (* "... Количество запросов должно быть целочисленным" *)
| RequestsNotPositive    (* "... Количество запросов должно быть положительным" *)
| Outcome (r : bool * option error).

(** How far [main] got: it returned, it panicked on an index out of range,
    or it is in its loop with a limiter. *)
Inductive progress : Type :=
| Returned
| Panicked
| Serving (fc : FloodControlImpl).

Section Harness.

(** [strconv.Atoi]: the integer, or nothing when it returns an error. *)
Variable Atoi : string → option Z.

(** [main] up to its loop, on the arguments [os.Args]. *)
Definition startup (args : list string) : list line * progress :=
  let usage := if decide (length args = 3%nat) then [] else [Usage] in
  match args !! 1%nat with
  | None => (usage, Panicked)
  | Some seconds =>
      match Atoi seconds with
      | None => (usage ++ [SecondsNotInteger], Returned)
      | Some N =>
          if N <=? 0 then (usage ++ [SecondsNotPositive], Returned)
          else
            match args !! 2%nat with
            | None => (usage, Panicked)
            | Some count =>
                match Atoi count with
                | None => (usage ++ [RequestsNotInteger], Returned)
                | Some K =>
                    if K <=? 0 then (usage ++ [RequestsNotPositive], Returned)
                    else
                      (usage,
                       Serving (NewFloodControl (wrap64 (second * N)) K))
                end
            end
      end
  end.

(** One turn of the loop: [userID] is declared anew, so it is 0 when
    [fmt.Scan] fails to read an integer, and [Check] is called on it. *)
Definition turn (input : Time * option Z) : call :=
  (fst input, default 0 (snd input)).

(** [main] on its arguments and on the first inputs of its loop, each with
    the instant [Check] reads: what is printed, and how far [main] got. *)
Definition main (args : list string) (inputs : list (Time * option Z))
  : list line * progress :=
  match startup args with
  | (printed, Serving fc) =>
      let r := run fc (turn <$> inputs) in
      (printed ++ ((λ e : event, Outcome (snd e)) <$> fst r), Serving (snd r))
  | stopped => stopped
  end.

End Harness.

(** ** The test of the repository *)

(** The calls of [t.Error] and [t.Errorf] the test can make. *)
Inductive failure : Type :=
| FirstRequestError      (* "Ошибка при проверке первого запроса" *)
| FirstRequestRefused    (* "Первый запрос должен пройти успешно" *)
| SecondRequestError     (* "Ошибка при проверке второго запроса" *)
| SecondRequestRefused   (* "Второй запрос должен пройти успешно" *)
| LimitNotEnforced.      (* "Превышение ... должно вернуть ошибку" *)

(** [if err != nil { t.Errorf }] followed by [if !ok { t.Error }]. *)
Definition expectAdmitted (r : bool * option error)
    (onError onRefused : failure) : list failure :=
  (if snd r is Some _ then [onError] else []) ++
  (if fst r then [] else [onRefused]).

(** [TestFloodControlImpl_Check], with [clock i] the instant read by its
    [i]-th call of [Check]: the failures it reports. *)
Definition TestFloodControlImpl_Check (clock : nat → Time) : list failure :=
  let fc := NewFloodControl (wrap64 (second * 10)) 5 in
  let userID1 := 1 in
  let userID2 := 2 in
  let r0 := Check fc (clock 0%nat) userID1 in
  let r1 := Check (snd r0) (clock 1%nat) userID2 in
  let loop := run (snd r1)
                ((λ i, (clock i, userID1)) <$> [2; 3; 4; 5; 6]%nat) in
  let r7 := Check (snd loop) (clock 7%nat) userID1 in
  let r8 := Check (snd r7) (clock 8%nat) userID2 in
  expectAdmitted (fst r0) FirstRequestError FirstRequestRefused ++
  expectAdmitted (fst r1) SecondRequestError SecondRequestRefused ++
  (if fst (fst r7) then [LimitNotEnforced] else []) ++
  expectAdmitted (fst r8) SecondRequestError SecondRequestRefused.

(** ** Scenarios of the specification, evaluated *)

Example scenario_3 :
  outcomesOf 1 (fst (run (NewFloodControl (10 * second) 1)
                       [(0, 1); (5 * second, 1); (11 * second, 1)]))
  = [(true, None); (false, Some ErrLimitExceeded); (true, None)].
Proof. vm_compute. reflexivity. Qed.

(** ** Durations between instants *)

Section Durations.

Implicit Types t u now : Time.

(** Within the range of a [Duration], [Sub] is the difference. *)
Lemma Sub_exact t u :
  time.minDuration ≤ t - u ≤ time.maxDuration → time.Sub t u = t - u.
Proof. unfold time.Sub. lia. Qed.

(** In particular between two monotonic readings, which are non-negative
    64-bit integers. *)
Lemma Sub_readings t u :
  0 ≤ t ≤ time.maxDuration → 0 ≤ u ≤ time.maxDuration →
  time.Sub t u = t - u.
Proof.
  intros Ht Hu. apply Sub_exact.
  unfold time.minDuration, time.maxDuration in *. lia.
Qed.

(** An older instant is at least as far from [now]. *)
Lemma Sub_older now t u : t ≤ u → time.Sub now u ≤ time.Sub now t.
Proof. unfold time.Sub. lia. Qed.

(** A later [now] is at least as far from a given instant. *)
Lemma Sub_later now now' t : now ≤ now' → time.Sub now t ≤ time.Sub now' t.
Proof. unfold time.Sub. lia. Qed.

Lemma stale_true window now t :
  stale window now t = true ↔ window < time.Sub now t.
Proof.
  unfold stale. destruct (Z.leb_spec (time.Sub now t) window);
    simpl; split; intros; (lia || congruence).
Qed.

Lemma stale_false window now t :
  stale window now t = false ↔ time.Sub now t ≤ window.
Proof.
  unfold stale. destruct (Z.leb_spec (time.Sub now t) window);
    simpl; split; intros; (lia || congruence).
Qed.

Lemma stale_older window now t u :
  t ≤ u → stale window now u = true → stale window now t = true.
Proof.
  rewrite !stale_true. intros Htu Hu.
  pose proof (Sub_older now t u Htu). lia.
Qed.

Lemma stale_later window now now' t :
  now ≤ now' → stale window now t = true → stale window now' t = true.
Proof.
  rewrite !stale_true. intros Hnow Ht.
  pose proof (Sub_later now now' t Hnow). lia.
Qed.

End Durations.

(** ** The eviction loop *)

Section Eviction.

Variable window : Duration.
Variable now : Time.

Lemma evict_cons_time t l :
  evict window now (TimeValue t :: l) =
    if stale window now t then evict window now l
    else (TimeValue t :: l, true).
Proof.
  simpl. unfold stale. destruct (time.Sub now t <=? window); reflexivity.
Qed.

(** The loop removes from the front only. *)
Lemma evict_suffix l : fst (evict window now l) `suffix_of` l.
Proof.
  induction l as [|v l IH]; [done|].
  destruct v as [t|tag]; [|done].
  rewrite evict_cons_time. destruct (stale window now t); [|done].
  by apply suffix_cons_r.
Qed.

Lemma evict_length l :
  (length (fst (evict window now l)) ≤ length l)%nat.
Proof. apply suffix_length, evict_suffix. Qed.

(** On a log of times the loop never takes the type-error exit. *)
Lemma evict_allTimes_ok l : allTimes l → snd (evict window now l) = true.
Proof.
  induction 1 as [|v l [t Ht] _ IH]; [done|].
  destruct v as [t'|tag]; [|discriminate].
  rewrite evict_cons_time. by destruct (stale window now t').
Qed.

Lemma allTimes_suffix l k : k `suffix_of` l → allTimes l → allTimes k.
Proof. intros [p ->]. unfold allTimes. rewrite Forall_app. tauto. Qed.

Lemma evict_allTimes l : allTimes l → allTimes (fst (evict window now l)).
Proof. apply allTimes_suffix, evict_suffix. Qed.

(** A front entry that is not stale stops the loop at once. *)
Lemma evict_fresh_front t l :
  stale window now t = false →
  evict window now (TimeValue t :: l) = (TimeValue t :: l, true).
Proof. intros H. by rewrite evict_cons_time, H. Qed.

(** A stale front entry is removed. *)
Lemma evict_stale_front t l :
  stale window now t = true →
  evict window now (TimeValue t :: l) = evict window now l.
Proof. intros H. by rewrite evict_cons_time, H. Qed.

(** What the loop leaves starts with an entry that is not stale. *)
Lemma evict_front_fresh l t k :
  fst (evict window now l) = TimeValue t :: k → stale window now t = false.
Proof.
  induction l as [|v l IH]; [done|].
  destruct v as [t'|tag]; [|done].
  rewrite evict_cons_time.
  destruct (stale window now t') eqn:Hs; [done|].
  simpl. by intros [= -> _].
Qed.

(** What the loop removes is stale, on a log of times. *)
Lemma evict_removed_stale l :
  allTimes l →
  ∃ removed,
    l = (TimeValue <$> removed) ++ fst (evict window now l) ∧
    Forall (λ t, stale window now t = true) removed.
Proof.
  induction 1 as [|v l [t Ht] _ IH]; [by exists []|].
  destruct v as [t'|tag]; [|discriminate].
  rewrite evict_cons_time. destruct (stale window now t') eqn:Hs.
  - destruct IH as (removed & Hl & Hst). exists (t' :: removed).
    split; [rewrite fmap_cons; simpl; by f_equal | by constructor].
  - by exists [].
Qed.

Lemma filter_keeps_all (ts : list Time) :
  Forall (λ t, stale window now t = false) ts →
  filter (λ t, stale window now t = false) ts = ts.
Proof.
  induction 1 as [|t ts Ht _ IH]; [done|].
  by rewrite filter_cons_True, IH.
Qed.

End Eviction.

(** ** One call of [Check] *)

Section CheckStep.

Implicit Types (fc : FloodControlImpl) (now : Time) (userID : Z).
Implicit Types (m : gmap Z (list any)) (l rest : list any).

Lemma Check_timeInterval fc now userID :
  timeInterval (snd (Check fc now userID)) = timeInterval fc.
Proof.
  unfold Check. destruct (evict _ _ _) as [rest [|]]; [|done].
  by destruct (_ >=? _).
Qed.

Lemma Check_maxRequests fc now userID :
  maxRequests (snd (Check fc now userID)) = maxRequests fc.
Proof.
  unfold Check. destruct (evict _ _ _) as [rest [|]]; [|done].
  by destruct (_ >=? _).
Qed.

Lemma afterEviction_other m userID rest other :
  userID ≠ other → afterEviction m userID rest !! other = m !! other.
Proof.
  intros Hne. unfold afterEviction.
  destruct (m !! userID); [by rewrite lookup_insert_ne|done].
Qed.

Lemma afterEviction_same m userID rest :
  afterEviction m userID rest !! userID = (λ _, rest) <$> m !! userID.
Proof.
  unfold afterEviction. destruct (m !! userID) eqn:Hm.
  - by rewrite lookup_insert_eq.
  - by rewrite Hm.
Qed.

(** The branch [Check] takes on a log of times. *)
Lemma Check_on_times fc now userID :
  allTimes (requestTimes fc userID) →
  Check fc now userID =
    let rest := fst (evict (timeInterval fc) now (requestTimes fc userID)) in
    if Z.of_nat (length rest) >=? maxRequests fc then
      ((false, Some ErrLimitExceeded),
       setRequests fc (afterEviction (requests fc) userID rest))
    else
      ((true, None),
       setRequests fc (<[userID := rest ++ [TimeValue now]]> (requests fc))).
Proof.
  intros Hl. unfold Check.
  pose proof (evict_allTimes_ok (timeInterval fc) now _ Hl) as Hok.
  destruct (evict _ _ _) as [rest ok]. simpl in *. by subst ok.
Qed.

(** A call on one key leaves what is stored under another. *)
Lemma Check_other fc now userID other :
  userID ≠ other →
  requests (snd (Check fc now userID)) !! other = requests fc !! other.
Proof.
  intros Hne. unfold Check. destruct (evict _ _ _) as [rest [|]].
  - destruct (_ >=? _); simpl.
    + by apply afterEviction_other.
    + by rewrite lookup_insert_ne.
  - simpl. by apply afterEviction_other.
Qed.

Lemma requestTimes_Check_other fc now userID other :
  userID ≠ other →
  requestTimes (snd (Check fc now userID)) other = requestTimes fc other.
Proof. intros Hne. unfold requestTimes. by rewrite Check_other. Qed.

(** The log of the key after a call: what the loop left, with [now] at
    the back exactly when the call was admitted. *)
Lemma requestTimes_Check fc now userID :
  requestTimes (snd (Check fc now userID)) userID =
    fst (evict (timeInterval fc) now (requestTimes fc userID)) ++
    (if admitted (fst (Check fc now userID)) then [TimeValue now] else []).
Proof.
  unfold Check, requestTimes.
  destruct (requests fc !! userID) as [l|] eqn:Hm; simpl.
  - destruct (evict _ _ l) as [rest [|]]; simpl.
    + destruct (_ >=? _); simpl.
      * by rewrite afterEviction_same, Hm, app_nil_r.
      * by rewrite lookup_insert_eq.
    + by rewrite afterEviction_same, Hm, app_nil_r.
  - destruct (_ >=? _); simpl.
    + by rewrite afterEviction_same, Hm.
    + by rewrite lookup_insert_eq.
Qed.

(** A call that is not admitted has one of the two errors, an admitted
    one has none. *)
Lemma Check_admitted_iff fc now userID :
  admitted (fst (Check fc now userID)) = true ↔
  fst (Check fc now userID) = (true, None).
Proof.
  unfold Check. destruct (evict _ _ _) as [rest [|]]; [|done].
  by destruct (_ >=? _).
Qed.

End CheckStep.

(** ** Admission decision *)

(** C1. On a limiter whose log for the key holds times, [Check] is not
    admitted exactly when the log left by the eviction loop has at least
    [maxRequests] entries, and it then reports the limit error; otherwise it
    returns [(true, nil)] and the map holds, under the key, that log with
    [now] appended at the back. *)
Theorem Check_decision (fc : FloodControlImpl) (now : Time) (userID : Z) :
  allTimes (requestTimes fc userID) →
  let rest := fst (evict (timeInterval fc) now (requestTimes fc userID)) in
  let result := Check fc now userID in
  (admitted (fst result) = false ↔ maxRequests fc ≤ Z.of_nat (length rest)) ∧
  (maxRequests fc ≤ Z.of_nat (length rest) →
     fst result = (false, Some ErrLimitExceeded)) ∧
  (Z.of_nat (length rest) < maxRequests fc →
     fst result = (true, None) ∧
     requests (snd result) =
       <[userID := rest ++ [TimeValue now]]> (requests fc) ∧
     requestTimes (snd result) userID = rest ++ [TimeValue now]).
Proof.
  intros Hl rest result. subst result.
  rewrite (Check_on_times fc now userID Hl). fold rest. simpl.
  destruct (Z.geb_spec (Z.of_nat (length rest)) (maxRequests fc)) as [Hge|Hlt];
    simpl.
  - repeat split; intros; (done || lia).
  - repeat split; intros; try (done || lia).
    unfold requestTimes. simpl. by rewrite lookup_insert_eq.
Qed.

Lemma Check_decision_witness :
  let fc := mkFloodControl {[ 7 := [TimeValue 0; TimeValue 4] ]} 10 3 in
  allTimes (requestTimes fc 7) ∧
  fst (Check fc 12 7) = (true, None) ∧
  requestTimes (snd (Check fc 12 7)) 7 = [TimeValue 4; TimeValue 12].
Proof.
  intros fc.
  assert (Hl : allTimes (requestTimes fc 7)).
  { vm_compute. repeat constructor; eexists; reflexivity. }
  split; [exact Hl|].
  destruct (Check_decision fc 12 7 Hl) as (_ & _ & Hadm).
  destruct Hadm as (Hres & _ & Hlog); [vm_compute; reflexivity|].
  split; [exact Hres|exact Hlog].
Defined.

(** ** Eviction *)

(** A chronological log of times splits into the stale entries, which the
    loop removes, and the entries at most [window] old, which it keeps. *)
Lemma evict_split_sorted (window : Duration) (now : Time) (ts : list Time) :
  StronglySorted Z.le ts →
  ∃ removed kept,
    ts = removed ++ kept ∧
    evict window now (TimeValue <$> ts) = (TimeValue <$> kept, true) ∧
    Forall (λ t, stale window now t = true) removed ∧
    Forall (λ t, stale window now t = false) kept.
Proof.
  induction 1 as [|t ts Hts IH Hle].
  - by exists [], [].
  - rewrite fmap_cons, evict_cons_time.
    destruct (stale window now t) eqn:Hs.
    + destruct IH as (removed & kept & -> & Hev & Hrem & Hkept).
      exists (t :: removed), kept. repeat split; [done|by constructor|done].
    + exists [], (t :: ts). repeat split; [constructor|].
      constructor; [done|].
      eapply Forall_impl; [exact Hle|]. intros u Htu. simpl in Htu.
      destruct (stale window now u) eqn:Hu; [|done].
      by rewrite (stale_older _ _ _ _ Htu Hu) in Hs.
Qed.

(** C2. On a chronological log, a [Check] at [now] removes exactly the
    entries [t] with [now.Sub(t) > timeInterval] and keeps exactly those
    with [now.Sub(t) <= timeInterval], an entry exactly [timeInterval] old
    included; the kept entries are the ones counted against
    [maxRequests]. *)
Theorem eviction_inclusive_boundary
    (fc : FloodControlImpl) (now : Time) (userID : Z) (ts : list Time) :
  requestTimes fc userID = TimeValue <$> ts →
  StronglySorted Z.le ts →
  ∃ removed kept,
    ts = removed ++ kept ∧
    evict (timeInterval fc) now (requestTimes fc userID)
      = (TimeValue <$> kept, true) ∧
    Forall (λ t, timeInterval fc < time.Sub now t) removed ∧
    Forall (λ t, time.Sub now t ≤ timeInterval fc) kept ∧
    (∀ t, t ∈ ts → time.Sub now t = timeInterval fc → t ∈ kept) ∧
    admitted (fst (Check fc now userID))
      = bool_decide (Z.of_nat (length kept) < maxRequests fc) ∧
    requestTimes (snd (Check fc now userID)) userID
      = (TimeValue <$> kept) ++
        (if admitted (fst (Check fc now userID)) then [TimeValue now] else []).
Proof.
  intros Hlog Hsorted.
  destruct (evict_split_sorted (timeInterval fc) now ts Hsorted)
    as (removed & kept & Hts & Hev & Hrem & Hkept).
  exists removed, kept. rewrite Hlog.
  split; [done|]. split; [done|].
  split. { eapply Forall_impl; [exact Hrem|]. intros t. apply stale_true. }
  split. { eapply Forall_impl; [exact Hkept|]. intros t. apply stale_false. }
  split.
  { intros t Hin Heq. subst ts. apply elem_of_app in Hin as [Hin|Hin]; [|done].
    rewrite Forall_forall in Hrem. apply Hrem, stale_true in Hin. lia. }
  split.
  - unfold Check. rewrite Hlog, Hev. rewrite length_fmap.
    destruct (Z.geb_spec (Z.of_nat (length kept)) (maxRequests fc)); simpl.
    + by rewrite bool_decide_eq_false_2 by lia.
    + by rewrite bool_decide_eq_true_2 by lia.
  - by rewrite requestTimes_Check, Hlog, Hev.
Qed.

Lemma eviction_inclusive_boundary_witness :
  let fc := mkFloodControl {[ 1 := TimeValue <$> [0; 2; 5] ]} 10 3 in
  requestTimes fc 1 = TimeValue <$> [0; 2; 5] ∧
  StronglySorted Z.le [0; 2; 5] ∧
  ∃ removed kept,
    [0; 2; 5] = removed ++ kept ∧
    (∀ t, t ∈ [0; 2; 5] → time.Sub 12 t = 10 → t ∈ kept).
Proof.
  intros fc.
  assert (Hlog : requestTimes fc 1 = TimeValue <$> [0; 2; 5]) by reflexivity.
  assert (Hsorted : StronglySorted Z.le [0; 2; 5]).
  { repeat constructor; lia. }
  split; [exact Hlog|]. split; [exact Hsorted|].
  destruct (eviction_inclusive_boundary fc 12 1 [0; 2; 5] Hlog Hsorted)
    as (removed & kept & Hts & _ & _ & _ & Hbound & _).
  exists removed, kept. split; [exact Hts|exact Hbound].
Defined.

(** C7. Refinement: on every chronological log, the loop of [Check] (remove
    from the front, stop at the first entry at most [window] old) leaves the
    same log as removing every stale entry wherever it stands, and does not
    take the type-error exit. *)
Theorem evict_refines_evictAllStale
    (window : Duration) (now : Time) (ts : list Time) :
  StronglySorted Z.le ts →
  evict window now (TimeValue <$> ts)
    = (TimeValue <$> evictAllStale window now ts, true).
Proof.
  unfold evictAllStale.
  induction 1 as [|t ts Hts IH Hle]; [done|].
  rewrite fmap_cons, evict_cons_time.
  destruct (stale window now t) eqn:Hs.
  - rewrite IH. by rewrite filter_cons_False by congruence.
  - rewrite filter_cons_True by done.
    rewrite filter_keeps_all; [done|].
    eapply Forall_impl; [exact Hle|]. intros u Htu. simpl in Htu.
    destruct (stale window now u) eqn:Hu; [|done].
    by rewrite (stale_older _ _ _ _ Htu Hu) in Hs.
Qed.

Lemma evict_refines_evictAllStale_witness :
  StronglySorted Z.le [1; 3; 3; 20; 22] ∧
  evict 10 25 (TimeValue <$> [1; 3; 3; 20; 22])
    = (TimeValue <$> evictAllStale 10 25 [1; 3; 3; 20; 22], true).
Proof.
  assert (Hsorted : StronglySorted Z.le [1; 3; 3; 20; 22]).
  { repeat constructor; lia. }
  split; [exact Hsorted|].
  exact (evict_refines_evictAllStale 10 25 [1; 3; 3; 20; 22] Hsorted).
Defined.

(** Without the order the two differ: the loop stops at the first kept
    entry and leaves a stale one behind it. *)
Example evict_unsorted :
  evict 10 25 (TimeValue <$> [20; 1]) = (TimeValue <$> [20; 1], true) ∧
  evictAllStale 10 25 [20; 1] = [20].
Proof. split; reflexivity. Qed.

(** ** First call on a key *)

(** C10. When the map has nothing for the key and [maxRequests >= 1],
    [Check] returns [(true, nil)] and binds the key to the one-element log
    [now]; the same call on the limiter that has the empty log under the key
    returns the same and leaves the same limiter. *)
Theorem Check_absent_key (fc : FloodControlImpl) (now : Time) (userID : Z) :
  requests fc !! userID = None →
  1 ≤ maxRequests fc →
  Check fc now userID =
    ((true, None),
     setRequests fc (<[userID := [TimeValue now]]> (requests fc))) ∧
  Check (setRequests fc (<[userID := []]> (requests fc))) now userID =
    Check fc now userID.
Proof.
  intros Hnone Hlimit.
  assert (Hfresh : Check fc now userID =
    ((true, None),
     setRequests fc (<[userID := [TimeValue now]]> (requests fc)))).
  { unfold Check, requestTimes. rewrite Hnone. cbn [default evict].
    destruct (_ >=? _) eqn:Hge; [|done].
    apply Z.geb_le in Hge. simpl in Hge. lia. }
  split; [exact Hfresh|]. rewrite Hfresh.
  unfold Check, requestTimes.
  cbn [requests timeInterval maxRequests setRequests].
  rewrite lookup_insert_eq. cbn [default from_option id evict].
  destruct (_ >=? _) eqn:Hge.
  - apply Z.geb_le in Hge. simpl in Hge. lia.
  - unfold setRequests. cbn [requests timeInterval maxRequests].
    by rewrite insert_insert_eq.
Qed.

Lemma Check_absent_key_witness :
  let fc := NewFloodControl 10 1 in
  requests fc !! 42 = None ∧ 1 ≤ maxRequests fc ∧
  fst (Check fc 5 42) = (true, None) ∧
  requests (snd (Check fc 5 42)) = {[ 42 := [TimeValue 5] ]}.
Proof.
  intros fc.
  assert (Hnone : requests fc !! 42 = None) by reflexivity.
  assert (Hlimit : 1 ≤ maxRequests fc) by (simpl; lia).
  split; [exact Hnone|]. split; [exact Hlimit|].
  destruct (Check_absent_key fc 5 42 Hnone Hlimit) as [-> _].
  split; reflexivity.
Defined.

(** ** Independence across keys *)

Section Frame.

Implicit Types (fc : FloodControlImpl) (now : Time) (userID : Z).

Lemma agreeOn_refl userID fc : agreeOn userID fc fc.
Proof. by repeat split. Qed.

(** A call on the key returns the same from limiters that agree on it,
    and they still agree afterwards. *)
Lemma Check_agree_same userID fc1 fc2 now :
  agreeOn userID fc1 fc2 →
  fst (Check fc1 now userID) = fst (Check fc2 now userID) ∧
  agreeOn userID (snd (Check fc1 now userID)) (snd (Check fc2 now userID)).
Proof.
  intros (Hreq & Hwin & Hmax). unfold agreeOn.
  rewrite !Check_timeInterval, !Check_maxRequests.
  unfold Check, requestTimes. rewrite Hreq, Hwin, Hmax.
  destruct (evict _ _ _) as [rest [|]].
  - destruct (_ >=? _); simpl.
    + by rewrite !afterEviction_same, Hreq.
    + by rewrite !lookup_insert_eq.
  - simpl. by rewrite !afterEviction_same, Hreq.
Qed.

(** A call on another key keeps the agreement. *)
Lemma Check_agree_other userID other fc1 fc2 now1 now2 :
  other ≠ userID →
  agreeOn userID fc1 fc2 →
  agreeOn userID (snd (Check fc1 now1 other)) (snd (Check fc2 now2 other)).
Proof.
  intros Hne (Hreq & Hwin & Hmax). unfold agreeOn.
  by rewrite !Check_timeInterval, !Check_maxRequests, !Check_other.
Qed.

Lemma Check_agree_after userID other fc now :
  other ≠ userID → agreeOn userID (snd (Check fc now other)) fc.
Proof.
  intros Hne. unfold agreeOn.
  by rewrite Check_timeInterval, Check_maxRequests, Check_other.
Qed.

Lemma run_agree userID calls : ∀ fc1 fc2,
  agreeOn userID fc1 fc2 →
  outcomesOf userID (fst (run fc1 calls))
    = outcomesOf userID (fst (run fc2 calls)) ∧
  agreeOn userID (snd (run fc1 calls)) (snd (run fc2 calls)).
Proof.
  induction calls as [|[now other] calls IH]; intros fc1 fc2 Hagree.
  - done.
  - cbn [run outcomesOf fst snd]. destruct (decide (other = userID)) as [->|Hne].
    + destruct (Check_agree_same userID fc1 fc2 now Hagree) as [Hout Hagree'].
      destruct (IH _ _ Hagree') as [IHout IHagree].
      by rewrite Hout, IHout.
    + apply IH. by apply Check_agree_other.
Qed.

End Frame.

(** C4. For distinct keys [a] and [b], a [Check] on [a] leaves what the map
    stores under [b]; a [Check] on [b] made next returns what it would have
    returned without the call on [a]; and so does every [Check] on [b] in
    any sequence of later calls, which also leaves the same log for [b]. *)
Theorem Check_independent_keys
    (fc : FloodControlImpl) (now : Time) (a b : Z) :
  a ≠ b →
  requests (snd (Check fc now a)) !! b = requests fc !! b ∧
  (∀ now', fst (Check (snd (Check fc now a)) now' b) = fst (Check fc now' b)) ∧
  (∀ calls,
     outcomesOf b (fst (run (snd (Check fc now a)) calls))
       = outcomesOf b (fst (run fc calls)) ∧
     requestTimes (snd (run (snd (Check fc now a)) calls)) b
       = requestTimes (snd (run fc calls)) b).
Proof.
  intros Hne.
  pose proof (Check_agree_after b a fc now Hne) as Hagree.
  split; [by apply Check_other|]. split.
  - intros now'. by apply Check_agree_same.
  - intros calls. destruct (run_agree b calls _ _ Hagree) as [Hout (Hreq & _)].
    split; [done|]. unfold requestTimes. by rewrite Hreq.
Qed.

Lemma Check_independent_keys_witness :
  let fc := snd (run (NewFloodControl 10 1) [(0, 2)]) in
  1 ≠ 2 ∧
  requests (snd (Check fc 3 1)) !! 2 = Some [TimeValue 0] ∧
  fst (Check (snd (Check fc 3 1)) 4 2) = (false, Some ErrLimitExceeded).
Proof.
  intros fc.
  assert (Hne : 1 ≠ 2) by lia.
  split; [exact Hne|].
  destruct (Check_independent_keys fc 3 1 2 Hne) as (Hlog & Hnext & _).
  split; [rewrite Hlog | rewrite Hnext]; reflexivity.
Defined.

(** ** Rejection *)

(** A full log whose entries are all within the window rejects the call
    and leaves the limiter as it is. *)
Lemma Check_full_fresh (fc : FloodControlImpl) (now : Time) (userID : Z)
    (ts : list Time) :
  requestTimes fc userID = TimeValue <$> ts →
  maxRequests fc ≤ Z.of_nat (length ts) →
  Forall (λ t, time.Sub now t ≤ timeInterval fc) ts →
  Check fc now userID = ((false, Some ErrLimitExceeded), fc).
Proof.
  intros Hlog Hfull Hfresh.
  assert (Hev : evict (timeInterval fc) now (TimeValue <$> ts)
                = (TimeValue <$> ts, true)).
  { destruct Hfresh as [|t ts Ht _]; [done|].
    rewrite fmap_cons. by apply evict_fresh_front, stale_false. }
  unfold Check. rewrite Hlog, Hev, length_fmap.
  destruct (_ >=? _) eqn:Hge.
  - f_equal. destruct fc as [m w k]. unfold setRequests. simpl. f_equal.
    unfold afterEviction, requestTimes in *. simpl in *.
    destruct (m !! userID) as [l|] eqn:Hm; [|done].
    simpl in Hlog. subst l. by apply insert_id.
  - rewrite Z.geb_leb in Hge. apply Z.leb_gt in Hge. lia.
Qed.

(** C5. A [Check] that is not admitted leaves under the key the log the
    eviction loop produced, without [now]: the removals stay in the stored
    list.  Consequently, calls repeated on a key whose log is full and
    wholly within the window at each of them are all rejected with the
    limit error and leave the limiter, and so the log, unchanged. *)
Theorem rejection_keeps_evictions
    (fc : FloodControlImpl) (now : Time) (userID : Z) :
  (admitted (fst (Check fc now userID)) = false →
     requests (snd (Check fc now userID)) !! userID
       = (λ l, fst (evict (timeInterval fc) now l)) <$> requests fc !! userID ∧
     requestTimes (snd (Check fc now userID)) userID
       = fst (evict (timeInterval fc) now (requestTimes fc userID))) ∧
  (∀ ts nows,
     requestTimes fc userID = TimeValue <$> ts →
     maxRequests fc ≤ Z.of_nat (length ts) →
     Forall (λ now', Forall (λ t, time.Sub now' t ≤ timeInterval fc) ts) nows →
     let r := run fc ((λ now', (now', userID)) <$> nows) in
     outcomesOf userID (fst r)
       = replicate (length nows) (false, Some ErrLimitExceeded) ∧
     snd r = fc).
Proof.
  split.
  - intros Hrej. split.
    + unfold Check, requestTimes in *.
      destruct (requests fc !! userID) as [l|] eqn:Hm; simpl in *.
      * destruct (evict _ _ l) as [rest [|]]; simpl in *.
        -- destruct (_ >=? _); simpl in *; [|done].
           by rewrite afterEviction_same, Hm.
        -- by rewrite afterEviction_same, Hm.
      * destruct (_ >=? _); simpl in *; [|done].
        by rewrite afterEviction_same, Hm.
    + by rewrite requestTimes_Check, Hrej, app_nil_r.
  - intros ts nows Hlog Hfull Hfresh. simpl.
    induction Hfresh as [|now' nows Hnow' _ IH]; [done|].
    rewrite fmap_cons. cbn [run outcomesOf fst snd length replicate].
    rewrite (Check_full_fresh fc now' userID ts Hlog Hfull Hnow').
    rewrite decide_True by done. cbn [fst snd].
    destruct IH as [-> ->]. done.
Qed.

Lemma rejection_keeps_evictions_witness :
  let fc := mkFloodControl {[ 1 := TimeValue <$> [0; 8; 9] ]} 10 2 in
  requestTimes (snd (Check fc 12 1)) 1 = TimeValue <$> [8; 9] ∧
  snd (run (snd (Check fc 12 1)) [(13, 1); (14, 1)]) = snd (Check fc 12 1).
Proof.
  intros fc.
  destruct (rejection_keeps_evictions fc 12 1) as [Hrej _].
  destruct (rejection_keeps_evictions (snd (Check fc 12 1)) 12 1)
    as [_ Hrepeat].
  split.
  - destruct Hrej as [_ ->]; reflexivity.
  - apply (Hrepeat [8; 9] [13; 14]).
    + reflexivity.
    + vm_compute. discriminate.
    + repeat constructor; vm_compute; discriminate.
Defined.

(** ** Invariants of the reachable limiters *)

Section Invariants.

Implicit Types (fc : FloodControlImpl) (now last : Time) (userID : Z).

Lemma timesOf_app (l k : list any) : timesOf (l ++ k) = timesOf l ++ timesOf k.
Proof. apply omap_app. Qed.

Lemma timesOf_fmap (ts : list Time) : timesOf (TimeValue <$> ts) = ts.
Proof. induction ts as [|t ts IH]; [done|]. simpl. by f_equal. Qed.

Lemma timesOf_length (l : list any) : (length (timesOf l) ≤ length l)%nat.
Proof.
  unfold timesOf. induction l as [|[t|tag] l IH]; simpl; [lia| |];
    change (list_omap any Time asTime l) with (omap asTime l); lia.
Qed.

Lemma NewFloodControl_requestTimes window limit userID :
  requestTimes (NewFloodControl window limit) userID = [].
Proof. unfold requestTimes. simpl. by rewrite lookup_empty. Qed.

(** [Check] stores times only. *)
Lemma Check_wellTyped fc now userID :
  wellTyped fc → wellTyped (snd (Check fc now userID)).
Proof.
  intros Hfc other. destruct (decide (userID = other)) as [<-|Hne].
  - rewrite requestTimes_Check. apply Forall_app. split.
    + apply evict_allTimes, Hfc.
    + destruct (admitted _); repeat constructor. by eexists.
  - rewrite requestTimes_Check_other by done. apply Hfc.
Qed.

(** [Check] never makes a log longer than [maxRequests]. *)
Lemma Check_bounded fc now userID :
  bounded fc → bounded (snd (Check fc now userID)).
Proof.
  intros Hfc other. rewrite Check_maxRequests.
  destruct (decide (userID = other)) as [<-|Hne].
  - rewrite requestTimes_Check.
    pose proof (evict_length (timeInterval fc) now (requestTimes fc userID)).
    specialize (Hfc userID). unfold Check.
    destruct (evict _ _ _) as [rest [|]]; simpl in *.
    + destruct (_ >=? _) eqn:Hge; simpl.
      * rewrite app_nil_r. lia.
      * rewrite Z.geb_leb in Hge. apply Z.leb_gt in Hge.
        rewrite length_app. simpl. lia.
    + rewrite app_nil_r. lia.
  - rewrite requestTimes_Check_other by done. apply Hfc.
Qed.

Lemma reachable_config window limit fc :
  reachable window limit fc →
  timeInterval fc = window ∧ maxRequests fc = limit.
Proof.
  induction 1 as [|fc now userID _ [IHw IHl]]; [done|].
  by rewrite Check_timeInterval, Check_maxRequests.
Qed.

Lemma reachable_wellTyped window limit fc :
  reachable window limit fc → wellTyped fc.
Proof.
  induction 1 as [|fc now userID _ IH].
  - intros userID. rewrite NewFloodControl_requestTimes. constructor.
  - by apply Check_wellTyped.
Qed.

Lemma reachable_bounded window limit fc :
  reachable window limit fc → bounded fc.
Proof.
  induction 1 as [|fc now userID _ IH].
  - intros userID. rewrite NewFloodControl_requestTimes. simpl. lia.
  - by apply Check_bounded.
Qed.

Lemma reachable_run window limit calls : ∀ fc,
  reachable window limit fc → reachable window limit (snd (run fc calls)).
Proof.
  induction calls as [|c calls IH]; intros fc Hfc; [done|].
  cbn [run snd]. apply IH. by constructor.
Qed.

(** With the front entry stale and the log within its bound, the call is
    admitted. *)
Lemma Check_stale_front fc now userID t rest :
  0 < maxRequests fc →
  allTimes (requestTimes fc userID) →
  Z.of_nat (length (requestTimes fc userID)) ≤ maxRequests fc →
  requestTimes fc userID = TimeValue t :: rest →
  timeInterval fc < time.Sub now t →
  fst (Check fc now userID) = (true, None).
Proof.
  intros Hpos Htimes Hlen Hlog Hstale.
  rewrite (Check_on_times fc now userID Htimes). cbn zeta.
  rewrite Hlog in *. rewrite evict_stale_front by by apply stale_true.
  pose proof (evict_length (timeInterval fc) now rest).
  destruct (_ >=? _) eqn:Hge; [|done].
  apply Z.geb_le in Hge. simpl in Hlen. lia.
Qed.

(** A log shorter than [maxRequests] admits the call. *)
Lemma Check_short_log fc now userID :
  allTimes (requestTimes fc userID) →
  Z.of_nat (length (requestTimes fc userID)) < maxRequests fc →
  fst (Check fc now userID) = (true, None).
Proof.
  intros Htimes Hlen.
  rewrite (Check_on_times fc now userID Htimes). cbn zeta.
  pose proof (evict_length (timeInterval fc) now (requestTimes fc userID)).
  destruct (_ >=? _) eqn:Hge; [|done].
  apply Z.geb_le in Hge. lia.
Qed.

(** As long as no call on the key is admitted, its log only loses
    entries at the front. *)
Lemma run_not_admitted_suffix userID calls : ∀ fc,
  Forall (λ r, admitted r = false) (outcomesOf userID (fst (run fc calls))) →
  requestTimes (snd (run fc calls)) userID `suffix_of` requestTimes fc userID.
Proof.
  induction calls as [|[now other] calls IH]; intros fc Hrej; [done|].
  cbn [run outcomesOf fst snd] in *.
  destruct (decide (other = userID)) as [->|Hne].
  - apply Forall_cons in Hrej as [Hnow Hrej].
    etrans; [by apply IH|].
    rewrite requestTimes_Check, Hnow, app_nil_r. apply evict_suffix.
  - etrans; [by apply IH|]. by rewrite requestTimes_Check_other.
Qed.

End Invariants.

(** ** Errors *)

(** C9. In every limiter reachable from [NewFloodControl] by calls of
    [Check], every element of every stored log is a time, and a call of
    [Check] returns [(true, nil)] or [(false, limit exceeded)]: the return
    of the not-a-time error is never taken. *)
Theorem Check_only_limit_error
    (window : Duration) (limit : Z) (fc : FloodControlImpl) :
  reachable window limit fc →
  (∀ userID l v, requests fc !! userID = Some l → v ∈ l →
     ∃ t, v = TimeValue t) ∧
  (∀ now userID,
     fst (Check fc now userID) = (true, None) ∨
     fst (Check fc now userID) = (false, Some ErrLimitExceeded)) ∧
  (∀ now userID, snd (fst (Check fc now userID)) ≠ Some ErrNotTime).
Proof.
  intros Hreach. pose proof (reachable_wellTyped _ _ _ Hreach) as Htyped.
  assert (Hcases : ∀ now userID,
     fst (Check fc now userID) = (true, None) ∨
     fst (Check fc now userID) = (false, Some ErrLimitExceeded)).
  { intros now userID. rewrite (Check_on_times fc now userID (Htyped userID)).
    cbn zeta. destruct (_ >=? _); [by right|by left]. }
  split; [|split; [exact Hcases|]].
  - intros userID l v Hl Hv. specialize (Htyped userID).
    unfold requestTimes in Htyped. rewrite Hl in Htyped. simpl in Htyped.
    unfold allTimes in Htyped. rewrite Forall_forall in Htyped.
    destruct (Htyped v Hv) as [t Ht]. destruct v as [t'|tag]; [|done].
    by exists t'.
  - intros now userID. by destruct (Hcases now userID) as [-> | ->].
Qed.

Lemma Check_only_limit_error_witness :
  let fc := snd (run (NewFloodControl 10 1) [(0, 1); (5, 1)]) in
  reachable 10 1 fc ∧
  snd (fst (Check fc 6 1)) ≠ Some ErrNotTime.
Proof.
  intros fc.
  assert (Hreach : reachable 10 1 fc).
  { apply (reachable_run 10 1 [(0, 1); (5, 1)]). constructor. }
  split; [exact Hreach|].
  destruct (Check_only_limit_error 10 1 fc Hreach) as (_ & _ & Hnever).
  apply Hnever.
Defined.

(** The error is returned from a limiter holding something else than a
    time, which no call produces. *)
Example Check_not_a_time :
  fst (Check (mkFloodControl {[ 1 := [OtherValue 0] ]} 10 1) 5 1)
  = (false, Some ErrNotTime).
Proof. reflexivity. Qed.

(** ** Recovery *)

(** C6, as amended. Let a [Check] on a key be rejected because its log is
    full, in a limiter reachable with [maxRequests > 0].  The log then holds
    exactly [maxRequests] entries and has an oldest one.  A later [Check] on
    the key, made more than the window after that oldest entry, is admitted
    provided no call on the key was admitted in between (calls on other
    keys, and rejected calls on the key, may have been made); this covers
    the next [Check] on the key.  No assumption on the clock is needed. *)
Theorem monotonic_recovery
    (window : Duration) (limit : Z) (fc : FloodControlImpl)
    (rejectedAt : Time) (userID : Z) (calls : list call) (now : Time) :
  0 < limit →
  reachable window limit fc →
  fst (Check fc rejectedAt userID) = (false, Some ErrLimitExceeded) →
  let full := snd (Check fc rejectedAt userID) in
  let later := snd (run full calls) in
  let between := outcomesOf userID (fst (run full calls)) in
  Z.of_nat (length (requestTimes full userID)) = limit ∧
  (∃ oldest, head (requestTimes full userID) = Some (TimeValue oldest)) ∧
  (∀ oldest,
     head (requestTimes full userID) = Some (TimeValue oldest) →
     Forall (λ r, admitted r = false) between →
     window < time.Sub now oldest →
     fst (Check later now userID) = (true, None)).
Proof.
  intros Hpos Hreach Hrej full later between.
  assert (Hfull : reachable window limit full) by by constructor.
  assert (Hlater : reachable window limit later) by by apply reachable_run.
  destruct (reachable_config _ _ _ Hlater) as [Hw2 Hl2].
  pose proof (reachable_wellTyped _ _ _ Hreach userID) as Ht0.
  pose proof (reachable_wellTyped _ _ _ Hfull userID) as Ht1.
  pose proof (reachable_wellTyped _ _ _ Hlater userID) as Ht2.
  pose proof (reachable_bounded _ _ _ Hfull userID) as Hb1.
  rewrite (proj2 (reachable_config _ _ _ Hfull)) in Hb1.
  assert (Hlen : Z.of_nat (length (requestTimes full userID)) = limit).
  { specialize (Hb1 : Z.of_nat (length (requestTimes full userID)) ≤ _).
    subst full. rewrite requestTimes_Check, Hrej in *.
    cbn [admitted fst] in *. rewrite app_nil_r in *.
    rewrite (Check_on_times fc rejectedAt userID Ht0) in Hrej. cbn zeta in Hrej.
    rewrite (proj2 (reachable_config _ _ _ Hreach)) in Hrej.
    destruct (_ >=? _) eqn:Hge; [|done].
    apply Z.geb_le in Hge. lia. }
  split; [exact Hlen|]. split.
  - destruct (requestTimes full userID) as [|[t|tag] l]; simpl in Hlen.
    + lia.
    + by exists t.
    + apply Forall_cons in Ht1 as [[? [=]] _].
  - intros oldest Hhead Hbetween Hstale.
    pose proof (run_not_admitted_suffix userID calls full Hbetween) as Hsuf.
    fold later in Hsuf.
    destruct (requestTimes full userID) as [|v tl] eqn:Hlog; [done|].
    simpl in Hhead. injection Hhead as ->.
    destruct Hsuf as [[|v removed] Hsuf]; simpl in Hsuf.
    + symmetry in Hsuf.
      apply (Check_stale_front later now userID oldest tl);
        rewrite ?Hl2, ?Hw2, ?Hsuf; simpl in *; (done || lia).
    + apply Check_short_log; [done|].
      injection Hsuf as _ ->. rewrite Hl2.
      simpl in Hlen. rewrite length_app in Hlen. lia.
Qed.

Lemma monotonic_recovery_witness :
  let fc := snd (run (NewFloodControl 10 1) [(0, 1)]) in
  0 < 1 ∧
  reachable 10 1 fc ∧
  fst (Check fc 5 1) = (false, Some ErrLimitExceeded) ∧
  fst (Check (snd (run (snd (Check fc 5 1)) [(6, 2); (7, 1)])) 11 1)
    = (true, None).
Proof.
  intros fc.
  assert (Hpos : 0 < 1) by lia.
  assert (Hreach : reachable 10 1 fc).
  { apply (reachable_run 10 1 [(0, 1)]). constructor. }
  assert (Hrej : fst (Check fc 5 1) = (false, Some ErrLimitExceeded))
    by reflexivity.
  split; [exact Hpos|]. split; [exact Hreach|]. split; [exact Hrej|].
  destruct (monotonic_recovery 10 1 fc 5 1 [(6, 2); (7, 1)] 11
              Hpos Hreach Hrej) as (_ & _ & Hnext).
  apply (Hnext 0).
  - reflexivity.
  - repeat constructor.
  - vm_compute. reflexivity.
Defined.

(** C6, as stated, fails for a later [Check] that follows an admission on
    the same key.  With [maxRequests = 2] and a window of 10: admissions at
    0 and 5, a rejection at 6 on the full log [0; 5], an admission at 11
    (which evicts 0 and leaves [5; 11]), and then a [Check] at 12, more than
    the window after the oldest entry 0 of the log that was full, which is
    rejected: 5 and 11 are both within the window.  The clock reads are
    non-decreasing. *)
Lemma recovery_any_later_counterexample :
  ¬ (∀ (window : Duration) (limit : Z) (before between : list call)
       (rejectedAt now oldest : Time) (userID : Z),
       0 < limit →
       clockMonotone
         (before ++ [(rejectedAt, userID)] ++ between ++ [(now, userID)]) →
       let fc := snd (run (NewFloodControl window limit) before) in
       let full := snd (Check fc rejectedAt userID) in
       fst (Check fc rejectedAt userID) = (false, Some ErrLimitExceeded) →
       head (requestTimes full userID) = Some (TimeValue oldest) →
       window < time.Sub now oldest →
       fst (Check (snd (run full between)) now userID) = (true, None)).
Proof.
  intros Hclaim.
  specialize (Hclaim 10 2 [(0, 7); (5, 7)] [(11, 7)] 6 12 0 7).
  assert (Hrej : fst (Check (snd (run (snd (Check (snd (run
            (NewFloodControl 10 2) [(0, 7); (5, 7)])) 6 7)) [(11, 7)])) 12 7)
          = (false, Some ErrLimitExceeded)) by (vm_compute; reflexivity).
  rewrite Hclaim in Hrej; [discriminate|lia| | | |].
  - unfold clockMonotone. simpl. repeat constructor; lia.
  - vm_compute. reflexivity.
  - vm_compute. reflexivity.
  - vm_compute. reflexivity.
Qed.

(** ** Runs under a monotone clock *)

Section MonotoneClock.

Implicit Types (fc : FloodControlImpl) (now last : Time) (userID : Z).

Lemma run_app calls1 : ∀ fc calls2,
  run fc (calls1 ++ calls2) =
    (fst (run fc calls1) ++ fst (run (snd (run fc calls1)) calls2),
     snd (run (snd (run fc calls1)) calls2)).
Proof.
  induction calls1 as [|c calls1 IH]; intros fc calls2.
  - simpl. by destruct (run fc calls2).
  - cbn [app run fst snd]. by rewrite IH.
Qed.

Lemma lastRead_snoc calls : ∀ start c,
  lastRead start (calls ++ [c]) = fst c.
Proof. induction calls as [|c' calls IH]; intros start c; [done|apply IH]. Qed.

(** A monotone sequence of reads can be given a start that it does not
    go below. *)
Lemma clockMonotone_start calls :
  clockMonotone calls →
  ∃ start, StronglySorted Z.le (start :: (fst <$> calls)).
Proof.
  unfold clockMonotone. destruct calls as [|c calls]; intros Hmono.
  - exists 0. repeat constructor.
  - exists (fst c). rewrite fmap_cons in *. constructor; [done|].
    apply StronglySorted_cons in Hmono as [Hle _]. constructor; [lia|done].
Qed.

Lemma clockMonotone_app_l calls1 calls2 :
  clockMonotone (calls1 ++ calls2) → clockMonotone calls1.
Proof.
  unfold clockMonotone. rewrite fmap_app. apply StronglySorted_app_1_l.
Qed.

Lemma chronological_suffix (l k : list any) :
  k `suffix_of` l → chronological l → chronological k.
Proof.
  intros [p ->] [Htimes Hsorted]. unfold chronological, allTimes in *.
  rewrite timesOf_app in Hsorted. rewrite Forall_app in Htimes.
  split; [tauto|]. by apply StronglySorted_app_1_r in Hsorted.
Qed.

Lemma timesOf_suffix_Forall (P : Time → Prop) (l k : list any) :
  k `suffix_of` l → Forall P (timesOf l) → Forall P (timesOf k).
Proof. intros [p ->]. rewrite timesOf_app, Forall_app. tauto. Qed.

(** One call at a read that does not go back keeps every log
    chronological. *)
Lemma Check_chronologicalUpTo fc last now userID :
  chronologicalUpTo last fc → last ≤ now →
  chronologicalUpTo now (snd (Check fc now userID)).
Proof.
  intros Hfc Hnow other. destruct (Hfc other) as [Hchr Hlast].
  assert (Hbound : ∀ l, Forall (λ t, t ≤ last) l → Forall (λ t, t ≤ now) l).
  { intros l Hl. eapply Forall_impl; [exact Hl|]. intros t Ht. simpl in Ht.
    lia. }
  destruct (decide (userID = other)) as [<-|Hne].
  - rewrite requestTimes_Check.
    pose proof (evict_suffix (timeInterval fc) now (requestTimes fc userID))
      as Hsuf.
    pose proof (chronological_suffix _ _ Hsuf Hchr) as [Htimes Hsorted].
    pose proof (timesOf_suffix_Forall _ _ _ Hsuf Hlast) as Hrest.
    destruct (admitted _).
    + split; [split|].
      * apply Forall_app. split; [done|]. repeat constructor. by eexists.
      * rewrite timesOf_app. apply StronglySorted_app_2;
          [|done|repeat constructor].
        intros t u Ht Hu. apply list_elem_of_singleton in Hu as ->.
        rewrite Forall_forall in Hrest. specialize (Hrest t Ht). simpl in *.
        lia.
      * rewrite timesOf_app. apply Forall_app. split; [by apply Hbound|].
        repeat constructor. simpl. lia.
    + rewrite app_nil_r. split; [done|by apply Hbound].
  - rewrite requestTimes_Check_other by done. split; [done|by apply Hbound].
Qed.

Lemma run_chronologicalUpTo calls : ∀ fc last,
  chronologicalUpTo last fc →
  StronglySorted Z.le (last :: (fst <$> calls)) →
  chronologicalUpTo (lastRead last calls) (snd (run fc calls)).
Proof.
  induction calls as [|c calls IH]; intros fc last Hfc Hmono; [done|].
  cbn [run snd lastRead]. rewrite fmap_cons in Hmono.
  apply StronglySorted_cons in Hmono as [Hle Hmono].
  apply Forall_cons in Hle as [Hle _].
  apply IH; [|done]. by apply Check_chronologicalUpTo with last.
Qed.

Lemma NewFloodControl_chronologicalUpTo window limit last :
  chronologicalUpTo last (NewFloodControl window limit).
Proof.
  intros userID. rewrite NewFloodControl_requestTimes.
  repeat split; constructor.
Qed.

Lemma run_chronological window limit calls userID :
  clockMonotone calls →
  chronological
    (requestTimes (snd (run (NewFloodControl window limit) calls)) userID).
Proof.
  intros Hmono. destruct (clockMonotone_start calls Hmono) as [start Hstart].
  eapply run_chronologicalUpTo; [|exact Hstart].
  apply NewFloodControl_chronologicalUpTo.
Qed.

(** One call keeps the admissions of every key accounted for. *)
Lemma Check_accounted window fc last now userID k history :
  timeInterval fc = window →
  wellTyped fc →
  last ≤ now →
  accounted window last fc k history →
  accounted window now (snd (Check fc now userID)) k
    (history ++ admittedAt k [((now, userID), fst (Check fc now userID))]).
Proof.
  intros Hw Htyped Hnow (removed & -> & Hstale).
  assert (Hstale' : Forall (λ t, stale window now t = true) removed).
  { eapply Forall_impl; [exact Hstale|]. intros t. by apply stale_later. }
  unfold accounted. cbn [admittedAt fst snd].
  destruct (decide (userID = k)) as [->|Hne].
  - destruct (evict_removed_stale window now _ (Htyped k))
      as (gone & Hlog & Hgone).
    rewrite requestTimes_Check, Hw.
    exists (removed ++ gone). split; [|by apply Forall_app].
    rewrite Hlog at 1. rewrite !timesOf_app, timesOf_fmap.
    destruct (admitted _); simpl; by rewrite <- !app_assoc.
  - rewrite requestTimes_Check_other by done.
    exists removed. by rewrite app_nil_r.
Qed.

Lemma admittedAt_app k (events1 events2 : list event) :
  admittedAt k (events1 ++ events2)
    = admittedAt k events1 ++ admittedAt k events2.
Proof.
  induction events1 as [|[c r] events1 IH]; [done|].
  cbn [app admittedAt]. destruct (decide _); [|done].
  destruct (admitted r); [|done]. simpl. by f_equal.
Qed.

Lemma run_wellTyped calls : ∀ fc,
  wellTyped fc → wellTyped (snd (run fc calls)).
Proof.
  induction calls as [|c calls IH]; intros fc Hfc; [done|].
  cbn [run snd]. by apply IH, Check_wellTyped.
Qed.

Lemma run_timeInterval calls : ∀ fc,
  timeInterval (snd (run fc calls)) = timeInterval fc.
Proof.
  induction calls as [|c calls IH]; intros fc; [done|].
  cbn [run snd]. by rewrite IH, Check_timeInterval.
Qed.

Lemma run_accounted window k calls : ∀ fc last history,
  timeInterval fc = window →
  wellTyped fc →
  accounted window last fc k history →
  StronglySorted Z.le (last :: (fst <$> calls)) →
  accounted window (lastRead last calls) (snd (run fc calls)) k
    (history ++ admittedAt k (fst (run fc calls))).
Proof.
  induction calls as [|[now userID] calls IH];
    intros fc last history Hw Htyped Hacc Hmono.
  - simpl. by rewrite app_nil_r.
  - cbn [run fst snd lastRead]. rewrite fmap_cons in Hmono.
    apply StronglySorted_cons in Hmono as [Hle Hmono].
    apply Forall_cons in Hle as [Hle _]. simpl in Hle.
    change (((now, userID), fst (Check fc now userID))
              :: fst (run (snd (Check fc now userID)) calls))
      with ([((now, userID), fst (Check fc now userID))]
              ++ fst (run (snd (Check fc now userID)) calls)).
    rewrite admittedAt_app, app_assoc.
    apply IH; [by rewrite Check_timeInterval|by apply Check_wellTyped| |done].
    by apply Check_accounted with last.
Qed.

(** Of the admissions accounted for by a log, those within the window
    are in the log. *)
Lemma accounted_withinWindow window now fc k history :
  accounted window now fc k history →
  (length (withinWindow window now history)
     ≤ length (requestTimes fc k))%nat.
Proof.
  intros (removed & -> & Hstale). unfold withinWindow.
  rewrite filter_app, length_app.
  assert (Hnone : filter (λ t, time.Sub now t ≤ window) removed = []).
  { induction Hstale as [|t removed Ht _ IH]; [done|].
    rewrite filter_cons_False; [done|]. apply stale_true in Ht. lia. }
  rewrite Hnone. simpl.
  etrans; [apply length_filter|]. apply timesOf_length.
Qed.

End MonotoneClock.

(** ** Chronological order *)

(** C8. Under clock reads that do not go back, every log of a limiter
    reached from [NewFloodControl] holds times only, in non-decreasing order
    from front to back, and the next [Check] keeps it so: it removes
    entries from the front of the key's log only, and puts [now] at the
    back when it admits the call. *)
Theorem chronological_invariant
    (window : Duration) (limit : Z) (calls : list call)
    (now : Time) (userID : Z) :
  clockMonotone (calls ++ [(now, userID)]) →
  let fc := snd (run (NewFloodControl window limit) calls) in
  let result := Check fc now userID in
  (∀ k, chronological (requestTimes fc k)) ∧
  (∀ k, chronological (requestTimes (snd result) k)) ∧
  (∃ removed rest,
     requestTimes fc userID = removed ++ rest ∧
     requestTimes (snd result) userID
       = rest ++ (if admitted (fst result) then [TimeValue now] else [])).
Proof.
  intros Hmono fc result. split; [|split].
  - intros k. apply run_chronological.
    by apply clockMonotone_app_l in Hmono.
  - intros k.
    pose proof (run_chronological window limit _ k Hmono) as Hchr.
    by rewrite run_app in Hchr.
  - destruct (evict_suffix (timeInterval fc) now (requestTimes fc userID))
      as [removed Hremoved].
    exists removed, (fst (evict (timeInterval fc) now (requestTimes fc userID))).
    split; [done|apply requestTimes_Check].
Qed.

Lemma chronological_invariant_witness :
  clockMonotone ([(0, 1); (3, 1); (3, 2)] ++ [(14, 1)]) ∧
  chronological
    (requestTimes
       (snd (Check (snd (run (NewFloodControl 10 3) [(0, 1); (3, 1); (3, 2)]))
               14 1)) 1).
Proof.
  assert (Hmono : clockMonotone ([(0, 1); (3, 1); (3, 2)] ++ [(14, 1)])).
  { unfold clockMonotone. simpl. repeat constructor; lia. }
  split; [exact Hmono|].
  destruct (chronological_invariant 10 3 [(0, 1); (3, 1); (3, 2)] 14 1 Hmono)
    as (_ & Hafter & _).
  apply Hafter.
Defined.

(** ** Capacity *)

(** C3. With [maxRequests > 0]: after every [Check] of a sequence of calls
    on a new limiter, no key has a log longer than [maxRequests] (in
    particular the key of a call that was admitted); and, the clock reads
    not going back, for every key the number of its admitted events whose
    instant lies within the trailing window from the instant of that most
    recent call is at most [maxRequests]. *)
Theorem capacity_bound
    (window : Duration) (limit : Z) (calls : list call)
    (now : Time) (userID : Z) :
  0 < limit →
  let r := run (NewFloodControl window limit) (calls ++ [(now, userID)]) in
  (∀ k, Z.of_nat (length (requestTimes (snd r) k)) ≤ limit) ∧
  (clockMonotone (calls ++ [(now, userID)]) →
   ∀ k, Z.of_nat (length (withinWindow window now (admittedAt k (fst r))))
        ≤ limit).
Proof.
  intros Hpos r.
  assert (Hreach : reachable window limit (snd r)).
  { apply reachable_run. constructor. }
  assert (Hlen : ∀ k, Z.of_nat (length (requestTimes (snd r) k)) ≤ limit).
  { intros k. pose proof (reachable_bounded _ _ _ Hreach k) as Hb.
    rewrite (proj2 (reachable_config _ _ _ Hreach)) in Hb. lia. }
  split; [exact Hlen|]. intros Hmono k.
  destruct (clockMonotone_start _ Hmono) as [start Hstart].
  pose proof (run_accounted window k (calls ++ [(now, userID)])
                (NewFloodControl window limit) start []) as Hacc.
  rewrite lastRead_snoc in Hacc. cbn [fst app] in Hacc.
  apply accounted_withinWindow in Hacc.
  - fold r in Hacc. specialize (Hlen k). lia.
  - done.
  - intros u. rewrite NewFloodControl_requestTimes. constructor.
  - exists []. rewrite NewFloodControl_requestTimes. by split.
  - done.
Qed.

Lemma capacity_bound_witness :
  0 < 2 ∧
  clockMonotone ([(0, 1); (4, 1); (5, 1); (11, 1); (12, 2)] ++ [(13, 1)]) ∧
  Z.of_nat (length (withinWindow 10 13
    (admittedAt 1 (fst (run (NewFloodControl 10 2)
       ([(0, 1); (4, 1); (5, 1); (11, 1); (12, 2)] ++ [(13, 1)])))))) ≤ 2.
Proof.
  assert (Hpos : 0 < 2) by lia.
  assert (Hmono :
    clockMonotone ([(0, 1); (4, 1); (5, 1); (11, 1); (12, 2)] ++ [(13, 1)])).
  { unfold clockMonotone. simpl. repeat constructor; lia. }
  split; [exact Hpos|]. split; [exact Hmono|].
  destruct (capacity_bound 10 2 [(0, 1); (4, 1); (5, 1); (11, 1); (12, 2)]
              13 1 Hpos) as [_ Hwindow].
  apply (Hwindow Hmono).
Defined.

(** The history of the run above: three admissions, two of them within
    the window of the last call. *)
Example capacity_history :
  let r := run (NewFloodControl 10 2)
             [(0, 1); (4, 1); (5, 1); (11, 1); (12, 2); (13, 1)] in
  admittedAt 1 (fst r) = [0; 4; 11] ∧
  withinWindow 10 13 (admittedAt 1 (fst r)) = [4; 11].
Proof. vm_compute. split; reflexivity. Qed.

(** The hypothesis on the clock is used.  Were a read to go back (which
    the monotonic reading of [time.Now()] does not), the count could exceed
    [maxRequests]: admitted at 100 and at 111, both within 10 of a read
    105. *)
Example capacity_clock_back :
  let r := run (NewFloodControl 10 1) [(100, 1); (111, 1); (105, 1)] in
  withinWindow 10 105 (admittedAt 1 (fst r)) = [100; 111].
Proof. vm_compute. reflexivity. Qed.

(** * Further properties of [Check] *)

(** ** Rejected calls leave no trace *)

(** Evicting at a later instant absorbs an eviction made before. *)
Lemma evict_evict (window : Duration) (now1 now2 : Time) (l : list any) :
  now1 ≤ now2 →
  evict window now2 (fst (evict window now1 l)) = evict window now2 l.
Proof.
  intros Hnow. induction l as [|[t|tag] l IH]; [done| |done].
  rewrite (evict_cons_time window now1).
  destruct (stale window now1 t) eqn:Hs; [|done].
  rewrite IH. rewrite (evict_cons_time window now2).
  by rewrite (stale_later window now1 now2 t Hnow Hs).
Qed.

Lemma afterEviction_twice (m : gmap Z (list any)) (userID : Z)
    (rest1 rest2 : list any) :
  afterEviction (afterEviction m userID rest1) userID rest2
    = afterEviction m userID rest2.
Proof.
  unfold afterEviction. destruct (m !! userID) eqn:Hm.
  - by rewrite lookup_insert_eq, insert_insert_eq.
  - by rewrite Hm.
Qed.

Lemma insert_afterEviction (m : gmap Z (list any)) (userID : Z)
    (rest l : list any) :
  <[userID := l]> (afterEviction m userID rest) = <[userID := l]> m.
Proof.
  unfold afterEviction. destruct (m !! userID); [|done].
  by rewrite insert_insert_eq.
Qed.

(** X1. A call that is not admitted does not influence what follows: a
    later [Check] on the same key, at an instant that is not earlier,
    returns the same pair and leaves the same limiter as if the rejected
    call had not been made. *)
Theorem rejected_call_leaves_no_trace
    (fc : FloodControlImpl) (now1 now2 : Time) (userID : Z) :
  now1 ≤ now2 →
  admitted (fst (Check fc now1 userID)) = false →
  Check (snd (Check fc now1 userID)) now2 userID = Check fc now2 userID.
Proof.
  intros Hnow Hrej.
  assert (Hstate : snd (Check fc now1 userID) =
    setRequests fc (afterEviction (requests fc) userID
      (fst (evict (timeInterval fc) now1 (requestTimes fc userID))))).
  { unfold Check in *. destruct (evict _ _ _) as [rest [|]]; [|done].
    by destruct (_ >=? _). }
  assert (Hlog : requestTimes (snd (Check fc now1 userID)) userID =
    fst (evict (timeInterval fc) now1 (requestTimes fc userID))).
  { by rewrite requestTimes_Check, Hrej, app_nil_r. }
  unfold Check at 1. rewrite Hlog, Hstate.
  cbn [timeInterval maxRequests requests setRequests].
  rewrite evict_evict by done. unfold Check.
  destruct (evict _ now2 _) as [rest [|]].
  - destruct (_ >=? _); unfold setRequests; simpl.
    + by rewrite afterEviction_twice.
    + by rewrite insert_afterEviction.
  - unfold setRequests; simpl. by rewrite afterEviction_twice.
Qed.

Lemma rejected_call_leaves_no_trace_witness :
  let fc := mkFloodControl {[ 1 := TimeValue <$> [0; 8; 9] ]} 10 2 in
  12 ≤ 19 ∧
  admitted (fst (Check fc 12 1)) = false ∧
  Check (snd (Check fc 12 1)) 19 1 = Check fc 19 1.
Proof.
  intros fc.
  assert (Hnow : 12 ≤ 19) by lia.
  assert (Hrej : admitted (fst (Check fc 12 1)) = false) by reflexivity.
  split; [exact Hnow|]. split; [exact Hrej|].
  exact (rejected_call_leaves_no_trace fc 12 19 1 Hnow Hrej).
Defined.

(** ** When the next call gets through *)

(** A log that is full and whose front entry is within the window rejects
    the call. *)
Lemma Check_fresh_front_full (fc : FloodControlImpl) (now : Time)
    (userID : Z) (t : Time) (rest : list any) :
  requestTimes fc userID = TimeValue t :: rest →
  maxRequests fc ≤ Z.of_nat (length (TimeValue t :: rest)) →
  time.Sub now t ≤ timeInterval fc →
  fst (Check fc now userID) = (false, Some ErrLimitExceeded).
Proof.
  intros Hlog Hfull Hfresh. unfold Check.
  rewrite Hlog, evict_fresh_front by by apply stale_false.
  destruct (_ >=? _) eqn:Hge; [done|].
  rewrite Z.geb_leb in Hge. apply Z.leb_gt in Hge. lia.
Qed.

(** X2. After a call on a key was rejected for a full log (in a limiter
    reachable with [maxRequests > 0]), the call made next on that key is
    admitted exactly when its instant is more than the window after the
    oldest entry of the log: not before, and as soon as that holds. *)
Theorem next_admission_instant
    (window : Duration) (limit : Z) (fc : FloodControlImpl)
    (rejectedAt : Time) (userID : Z) (oldest now : Time) :
  0 < limit →
  reachable window limit fc →
  fst (Check fc rejectedAt userID) = (false, Some ErrLimitExceeded) →
  let full := snd (Check fc rejectedAt userID) in
  head (requestTimes full userID) = Some (TimeValue oldest) →
  (window < time.Sub now oldest →
     fst (Check full now userID) = (true, None)) ∧
  (time.Sub now oldest ≤ window →
     Check full now userID = ((false, Some ErrLimitExceeded), full)).
Proof.
  intros Hpos Hreach Hrej full Hhead.
  assert (Hfull : reachable window limit full) by by constructor.
  destruct (reachable_config _ _ _ Hreach) as [Hw0 Hl0].
  destruct (reachable_config _ _ _ Hfull) as [Hw1 Hl1].
  pose proof (reachable_wellTyped _ _ _ Hreach userID) as Ht0.
  pose proof (reachable_wellTyped _ _ _ Hfull userID) as Ht1.
  pose proof (reachable_bounded _ _ _ Hfull userID) as Hb1.
  rewrite Hl1 in Hb1.
  assert (Hlen : limit ≤ Z.of_nat (length (requestTimes full userID))).
  { subst full. rewrite requestTimes_Check, Hrej. cbn [admitted fst].
    rewrite app_nil_r.
    rewrite (Check_on_times fc rejectedAt userID Ht0) in Hrej. cbn zeta in Hrej.
    rewrite Hl0 in Hrej. destruct (_ >=? _) eqn:Hge; [|done].
    by apply Z.geb_le in Hge. }
  destruct (requestTimes full userID) as [|v tl] eqn:Hlog; [done|].
  simpl in Hhead. injection Hhead as ->. split.
  - intros Hstale.
    apply (Check_stale_front full now userID oldest tl);
      rewrite ?Hl1, ?Hw1, ?Hlog; (done || lia).
  - intros Hfresh.
    assert (Htimes : ∃ ts, TimeValue oldest :: tl = TimeValue <$> ts).
    { clear -Ht1. revert Ht1. generalize (TimeValue oldest :: tl).
      intros l. induction 1 as [|v l [t Ht] _ [ts ->]]; [by exists []|].
      destruct v as [t'|]; [|done]. by exists (t' :: ts). }
    destruct Htimes as [ts Hts]. rewrite Hts in Hlog.
    destruct ts as [|t ts]; [done|]. injection Hts as <- ->.
    pose proof (evict_fresh_front (timeInterval full) now oldest
                  (TimeValue <$> ts)) as Hev.
    unfold Check. rewrite Hlog, fmap_cons, Hev
      by (apply stale_false; by rewrite Hw1).
    rewrite Hl1. destruct (_ >=? _) eqn:Hge.
    + f_equal. destruct full as [m w k]. unfold setRequests. simpl. f_equal.
      unfold afterEviction, requestTimes in *. simpl in *.
      destruct (m !! userID) as [l|] eqn:Hm; [|done].
      simpl in Hlog. subst l. by apply insert_id.
    + rewrite Z.geb_leb in Hge. apply Z.leb_gt in Hge.
      cbn [length] in Hge, Hlen.
      change (list_fmap Time any TimeValue ts) with (TimeValue <$> ts) in Hlen.
      lia.
Qed.

Lemma next_admission_instant_witness :
  let fc := snd (run (NewFloodControl 10 2) [(0, 1); (4, 1)]) in
  0 < 2 ∧ reachable 10 2 fc ∧
  fst (Check fc 5 1) = (false, Some ErrLimitExceeded) ∧
  fst (Check (snd (Check fc 5 1)) 10 1) = (false, Some ErrLimitExceeded) ∧
  fst (Check (snd (Check fc 5 1)) 11 1) = (true, None).
Proof.
  intros fc.
  assert (Hpos : 0 < 2) by lia.
  assert (Hreach : reachable 10 2 fc).
  { apply (reachable_run 10 2 [(0, 1); (4, 1)]). constructor. }
  assert (Hrej : fst (Check fc 5 1) = (false, Some ErrLimitExceeded))
    by reflexivity.
  assert (Hhead : head (requestTimes (snd (Check fc 5 1)) 1)
                  = Some (TimeValue 0)) by reflexivity.
  split; [exact Hpos|]. split; [exact Hreach|]. split; [exact Hrej|].
  split.
  - destruct (next_admission_instant 10 2 fc 5 1 0 10 Hpos Hreach Hrej Hhead)
      as [_ Hwait].
    rewrite Hwait; [reflexivity|vm_compute; discriminate].
  - destruct (next_admission_instant 10 2 fc 5 1 0 11 Hpos Hreach Hrej Hhead)
      as [Hgo _].
    apply Hgo. vm_compute. reflexivity.
Defined.

(** ** After a quiet period *)

Lemma allTimes_fmap_timesOf (l : list any) :
  allTimes l → l = TimeValue <$> timesOf l.
Proof.
  induction 1 as [|v l [t Ht] _ IH]; [done|].
  destruct v as [t'|]; [|done].
  change (timesOf (TimeValue t' :: l)) with (t' :: timesOf l).
  rewrite fmap_cons. by f_equal.
Qed.

Lemma evict_all_stale (window : Duration) (now : Time) (ts : list Time) :
  Forall (λ t, stale window now t = true) ts →
  evict window now (TimeValue <$> ts) = ([], true).
Proof.
  induction 1 as [|t ts Ht _ IH]; [done|].
  by rewrite fmap_cons, evict_stale_front.
Qed.

(** With every entry stale and [maxRequests >= 1], the call is admitted
    and the log is [now] alone. *)
Lemma Check_all_stale (fc : FloodControlImpl) (now : Time) (userID : Z)
    (ts : list Time) :
  1 ≤ maxRequests fc →
  requestTimes fc userID = TimeValue <$> ts →
  Forall (λ t, stale (timeInterval fc) now t = true) ts →
  Check fc now userID =
    ((true, None),
     setRequests fc (<[userID := [TimeValue now]]> (requests fc))).
Proof.
  intros Hlimit Hlog Hstale. unfold Check.
  rewrite Hlog, evict_all_stale by done.
  destruct (_ >=? _) eqn:Hge; [|done].
  apply Z.geb_le in Hge. simpl in Hge. lia.
Qed.

(** X3. When the newest entry of a chronological log is more than the
    window old and [maxRequests >= 1], [Check] drops the whole log, admits
    the call and leaves [now] as the only entry of the key. *)
Theorem quiet_period_resets_log
    (fc : FloodControlImpl) (now : Time) (userID : Z)
    (ts : list Time) (newest : Time) :
  1 ≤ maxRequests fc →
  requestTimes fc userID = TimeValue <$> ts →
  StronglySorted Z.le ts →
  last ts = Some newest →
  timeInterval fc < time.Sub now newest →
  Check fc now userID =
    ((true, None),
     setRequests fc (<[userID := [TimeValue now]]> (requests fc))).
Proof.
  intros Hlimit Hlog Hsorted Hlast Hquiet.
  apply Check_all_stale with ts; [done..|].
  apply last_Some in Hlast as [older ->].
  apply Forall_app. split; [|by repeat constructor; apply stale_true].
  apply Forall_forall. intros t Ht.
  apply (stale_older _ _ t newest); [|by apply stale_true].
  eapply StronglySorted_app_1_elem_of; [exact Hsorted|done|].
  by apply list_elem_of_singleton.
Qed.

Lemma quiet_period_resets_log_witness :
  let fc := mkFloodControl {[ 1 := TimeValue <$> [0; 8; 9] ]} 10 3 in
  1 ≤ maxRequests fc ∧
  requestTimes (snd (Check fc 20 1)) 1 = [TimeValue 20].
Proof.
  intros fc.
  assert (Hlimit : 1 ≤ maxRequests fc) by (simpl; lia).
  split; [exact Hlimit|].
  rewrite (quiet_period_resets_log fc 20 1 [0; 8; 9] 9 Hlimit).
  - reflexivity.
  - reflexivity.
  - repeat constructor; lia.
  - reflexivity.
  - vm_compute. reflexivity.
Defined.

(** ** Configurations the constructor does not refuse *)

(** X4. [NewFloodControl] accepts a limit that is not positive; the limiter
    it returns rejects every call with the limit error and never stores a
    key: after any calls it is still the limiter that was built. *)
Theorem no_positive_limit_rejects_all
    (window : Duration) (limit : Z) (calls : list call) :
  limit ≤ 0 →
  let r := run (NewFloodControl window limit) calls in
  Forall (λ e : event, snd e = (false, Some ErrLimitExceeded)) (fst r) ∧
  snd r = NewFloodControl window limit.
Proof.
  intros Hlimit.
  assert (Hstep : ∀ now userID,
    Check (NewFloodControl window limit) now userID =
      ((false, Some ErrLimitExceeded), NewFloodControl window limit)).
  { intros now userID.
    apply (Check_full_fresh _ now userID []); [|simpl; lia|constructor].
    apply NewFloodControl_requestTimes. }
  induction calls as [|[now userID] calls IH]; [done|].
  cbn [run fst snd]. rewrite Hstep. cbn [fst snd].
  destruct IH as [IHout IHfc]. split; [by constructor|done].
Qed.

Lemma no_positive_limit_rejects_all_witness :
  0 ≤ 0 ∧
  outcomesOf 1 (fst (run (NewFloodControl 10 0) [(0, 1); (100, 1)]))
    = [(false, Some ErrLimitExceeded); (false, Some ErrLimitExceeded)] ∧
  snd (run (NewFloodControl 10 0) [(0, 1); (100, 1)]) = NewFloodControl 10 0.
Proof.
  assert (Hlimit : 0 ≤ 0) by lia.
  split; [exact Hlimit|].
  destruct (no_positive_limit_rejects_all 10 0 [(0, 1); (100, 1)] Hlimit)
    as [_ Hfc].
  split; [reflexivity|exact Hfc].
Defined.

(** A log whose instants are not after [now] is wholly stale under a
    negative window. *)
Lemma negative_window_stale (window : Duration) (now : Time)
    (ts : list Time) :
  window < 0 →
  Forall (λ t, t ≤ now) ts →
  Forall (λ t, stale window now t = true) ts.
Proof.
  intros Hneg Hts. eapply Forall_impl; [exact Hts|].
  intros t Ht. simpl in Ht. apply stale_true.
  unfold time.Sub, time.minDuration, time.maxDuration. lia.
Qed.

(** X5. [NewFloodControl] accepts a negative window; with
    [maxRequests >= 1] and clock reads that do not go back, the limiter it
    returns admits every call, and each admitted call leaves its instant as
    the only entry of the key. *)
Theorem negative_window_admits_all
    (window : Duration) (limit : Z) (calls : list call)
    (now : Time) (userID : Z) :
  window < 0 →
  1 ≤ limit →
  clockMonotone (calls ++ [(now, userID)]) →
  let fc := snd (run (NewFloodControl window limit) calls) in
  fst (Check fc now userID) = (true, None) ∧
  requestTimes (snd (Check fc now userID)) userID = [TimeValue now].
Proof.
  intros Hneg Hlimit Hmono fc.
  destruct (clockMonotone_start _ Hmono) as [start Hstart].
  assert (Hreach : reachable window limit fc).
  { apply reachable_run. constructor. }
  destruct (reachable_config _ _ _ Hreach) as [Hw Hl].
  rewrite fmap_app in Hstart.
  assert (Hcalls : StronglySorted Z.le (start :: (fst <$> calls))).
  { change (start :: (fst <$> calls) ++ (fst <$> [(now, userID)]))
      with ((start :: (fst <$> calls)) ++ (fst <$> [(now, userID)])) in Hstart.
    by apply StronglySorted_app_1_l in Hstart. }
  pose proof (run_chronologicalUpTo calls _ start
    (NewFloodControl_chronologicalUpTo window limit start) Hcalls userID)
    as [[Htimes _] Hupto].
  fold fc in Htimes, Hupto.
  assert (Hlast : lastRead start calls ≤ now).
  { clear -Hstart. revert start Hstart.
    induction calls as [|c calls IH]; intros start Hstart.
    - simpl in *. apply StronglySorted_cons in Hstart as [Hle _].
      apply Forall_cons in Hle as [Hle _]. exact Hle.
    - cbn [lastRead]. apply IH. rewrite fmap_cons in Hstart.
      by apply StronglySorted_cons in Hstart as [_ Hstart]. }
  assert (Hcheck : Check fc now userID =
    ((true, None),
     setRequests fc (<[userID := [TimeValue now]]> (requests fc)))).
  { apply Check_all_stale with (timesOf (requestTimes fc userID)).
    - lia.
    - by apply allTimes_fmap_timesOf.
    - rewrite Hw. apply negative_window_stale; [done|].
      eapply Forall_impl; [exact Hupto|]. intros t Ht. simpl in Ht. lia. }
  rewrite Hcheck. split; [done|].
  unfold requestTimes. simpl. by rewrite lookup_insert_eq.
Qed.

Lemma negative_window_admits_all_witness :
  -5 < 0 ∧ 1 ≤ 1 ∧
  clockMonotone ([(0, 1); (0, 1); (1, 1)] ++ [(1, 1)]) ∧
  fst (Check (snd (run (NewFloodControl (-5) 1) [(0, 1); (0, 1); (1, 1)])) 1 1)
    = (true, None).
Proof.
  assert (Hneg : -5 < 0) by lia.
  assert (Hlimit : 1 ≤ 1) by lia.
  assert (Hmono : clockMonotone ([(0, 1); (0, 1); (1, 1)] ++ [(1, 1)])).
  { unfold clockMonotone. simpl. repeat constructor; lia. }
  split; [exact Hneg|]. split; [exact Hlimit|]. split; [exact Hmono|].
  destruct (negative_window_admits_all (-5) 1 [(0, 1); (0, 1); (1, 1)] 1 1
              Hneg Hlimit Hmono) as [Hadm _].
  exact Hadm.
Defined.

(** ** What the map holds *)

(** What the loop leaves is empty only if it ended normally. *)
Lemma evict_error_nonempty (window : Duration) (now : Time) (l : list any) :
  snd (evict window now l) = false → fst (evict window now l) ≠ [].
Proof.
  induction l as [|[t|tag] l IH]; [done| |done].
  rewrite evict_cons_time. by destruct (stale window now t).
Qed.

(** With [maxRequests >= 1] a call leaves its key in the map, and removes
    none. *)
Lemma Check_dom (fc : FloodControlImpl) (now : Time) (userID : Z) :
  1 ≤ maxRequests fc →
  dom (requests (snd (Check fc now userID))) = {[userID]} ∪ dom (requests fc).
Proof.
  intros Hlimit.
  assert (Hkept : ∀ rest, rest ≠ [] →
    rest `suffix_of` requestTimes fc userID →
    dom (afterEviction (requests fc) userID rest)
      = {[userID]} ∪ dom (requests fc)).
  { intros rest Hne Hsuf. unfold afterEviction, requestTimes in *.
    destruct (requests fc !! userID) as [l|] eqn:Hm.
    - by rewrite dom_insert_L.
    - simpl in Hsuf. by apply suffix_nil_inv in Hsuf. }
  pose proof (evict_suffix (timeInterval fc) now (requestTimes fc userID))
    as Hsuf.
  pose proof (evict_error_nonempty (timeInterval fc) now
                (requestTimes fc userID)) as Herr.
  unfold Check. destruct (evict _ _ _) as [rest [|]]; simpl in *.
  - destruct (_ >=? _) eqn:Hge; simpl.
    + apply Hkept; [|done]. apply Z.geb_le in Hge.
      intros ->. simpl in Hge. lia.
    + by rewrite dom_insert_L.
  - by apply Hkept; [apply Herr|].
Qed.

(** X6. With [maxRequests >= 1] no key is ever forgotten: after any calls,
    the map holds the keys it held before and every key that was called,
    admitted or not, and no other. *)
Theorem keys_are_never_removed (fc : FloodControlImpl) (calls : list call) :
  1 ≤ maxRequests fc →
  dom (requests (snd (run fc calls)))
    = list_to_set (snd <$> calls) ∪ dom (requests fc).
Proof.
  revert fc. induction calls as [|[now userID] calls IH]; intros fc Hlimit.
  - simpl. by rewrite (left_id_L ∅ (∪)).
  - cbn [run snd]. rewrite IH by by rewrite Check_maxRequests.
    rewrite Check_dom by done. rewrite fmap_cons, list_to_set_cons.
    cbn [snd].
    rewrite (comm_L (∪) {[userID]} (list_to_set (snd <$> calls))).
    by rewrite <- (assoc_L (∪)).
Qed.

Lemma keys_are_never_removed_witness :
  let fc := NewFloodControl 10 1 in
  1 ≤ maxRequests fc ∧
  dom (requests (snd (run fc [(0, 3); (1, 3); (2, 8)])))
    = list_to_set [3; 3; 8] ∪ (∅ : gset Z).
Proof.
  intros fc.
  assert (Hlimit : 1 ≤ maxRequests fc) by (simpl; lia).
  split; [exact Hlimit|].
  exact (keys_are_never_removed fc [(0, 3); (1, 3); (2, 8)] Hlimit).
Defined.

(** X7. In every limiter reachable from [NewFloodControl], a log stored in
    the map is never empty and never longer than [maxRequests]: a key is
    stored by its first admitted call, and eviction alone never empties a
    stored log without the call being admitted. *)
Theorem stored_logs_are_nonempty
    (window : Duration) (limit : Z) (fc : FloodControlImpl)
    (userID : Z) (l : list any) :
  reachable window limit fc →
  requests fc !! userID = Some l →
  1 ≤ Z.of_nat (length l) ≤ limit.
Proof.
  intros Hreach. revert userID l.
  induction Hreach as [|fc now called Hreach IH]; intros userID l Hl.
  - simpl in Hl. by rewrite lookup_empty in Hl.
  - pose proof (reachable_wellTyped _ _ _ Hreach called) as Htimes.
    destruct (reachable_config _ _ _ Hreach) as [_ Hlimit].
    destruct (decide (called = userID)) as [->|Hne].
    2: { rewrite (Check_other fc now called userID Hne) in Hl.
         exact (IH userID l Hl). }
    rewrite (Check_on_times fc now userID Htimes) in Hl. cbn zeta in Hl.
    pose proof (evict_length (timeInterval fc) now (requestTimes fc userID))
      as Hlen.
    destruct (_ >=? _) eqn:Hge; simpl in Hl.
    + apply Z.geb_le in Hge. rewrite afterEviction_same in Hl.
      unfold requestTimes in *.
      destruct (requests fc !! userID) as [l0|] eqn:Hm; [|done].
      simpl in *. injection Hl as <-. specialize (IH userID l0 Hm). lia.
    + rewrite Z.geb_leb in Hge. apply Z.leb_gt in Hge.
      rewrite lookup_insert_eq in Hl. injection Hl as <-.
      rewrite length_app. simpl. lia.
Qed.

Lemma stored_logs_are_nonempty_witness :
  let fc := snd (run (NewFloodControl 10 2) [(0, 1); (4, 1); (20, 1)]) in
  reachable 10 2 fc ∧
  requests fc !! 1 = Some [TimeValue 20] ∧
  1 ≤ Z.of_nat (length [TimeValue 20]) ≤ 2.
Proof.
  intros fc.
  assert (Hreach : reachable 10 2 fc).
  { apply (reachable_run 10 2 [(0, 1); (4, 1); (20, 1)]). constructor. }
  assert (Hl : requests fc !! 1 = Some [TimeValue 20]) by reflexivity.
  split; [exact Hreach|]. split; [exact Hl|].
  exact (stored_logs_are_nonempty 10 2 fc 1 _ Hreach Hl).
Defined.

(** ** The decision, from the history of admissions *)

Lemma lastRead_before (calls : list call) : ∀ (start : Time) (c : call),
  StronglySorted Z.le (start :: (fst <$> calls ++ [c])) →
  StronglySorted Z.le (start :: (fst <$> calls)) ∧
  lastRead start calls ≤ fst c.
Proof.
  induction calls as [|c' calls IH]; intros start c Hsorted.
  - simpl in *. split; [repeat constructor|].
    apply StronglySorted_cons in Hsorted as [Hle _].
    by apply Forall_cons in Hle as [Hle _].
  - change (fst <$> (c' :: calls) ++ [c])
      with (fst c' :: (fst <$> calls ++ [c])) in Hsorted.
    apply StronglySorted_cons in Hsorted as [Hle Hsorted].
    destruct (IH _ _ Hsorted) as [Hcalls Hlast]. split; [|done].
    rewrite fmap_cons. apply StronglySorted_cons. split; [|done].
    rewrite fmap_app in Hle. apply Forall_cons in Hle as [Hc' Hle].
    apply Forall_app in Hle as [Hle _]. by constructor.
Qed.

Lemma withinWindow_stale (window : Duration) (now : Time) (ts : list Time) :
  Forall (λ t, stale window now t = true) ts →
  withinWindow window now ts = [].
Proof.
  unfold withinWindow. induction 1 as [|t ts Ht _ IH]; [done|].
  rewrite filter_cons_False; [done|]. apply stale_true in Ht. lia.
Qed.

Lemma withinWindow_fresh (window : Duration) (now : Time) (ts : list Time) :
  Forall (λ t, stale window now t = false) ts →
  withinWindow window now ts = ts.
Proof.
  unfold withinWindow. induction 1 as [|t ts Ht _ IH]; [done|].
  rewrite filter_cons_True by by apply stale_false. by rewrite IH.
Qed.

(** X8. Under clock reads that do not go back, [Check] decides as a sliding
    window over the history of the key: on a limiter built by
    [NewFloodControl] and used by any calls, a call is admitted exactly
    when fewer than [maxRequests] of the calls of that key admitted so far
    lie within the window from [now].  The log stands for that history:
    what [Check] counts is what the history holds within the window. *)
Theorem sliding_window_decision
    (window : Duration) (limit : Z) (calls : list call)
    (now : Time) (userID : Z) :
  clockMonotone (calls ++ [(now, userID)]) →
  let r := run (NewFloodControl window limit) calls in
  let recent := withinWindow window now (admittedAt userID (fst r)) in
  fst (evict window now (requestTimes (snd r) userID)) = TimeValue <$> recent ∧
  admitted (fst (Check (snd r) now userID))
    = bool_decide (Z.of_nat (length recent) < limit).
Proof.
  intros Hmono r recent.
  destruct (clockMonotone_start _ Hmono) as [start Hstart].
  destruct (lastRead_before calls start (now, userID) Hstart)
    as [Hcalls Hlast]. cbn [fst] in Hlast.
  assert (Hreach : reachable window limit (snd r)).
  { apply reachable_run. constructor. }
  destruct (reachable_config _ _ _ Hreach) as [Hw Hl].
  pose proof (run_accounted window userID calls
                (NewFloodControl window limit) start []) as Hacc.
  cbn [app] in Hacc. fold r in Hacc.
  destruct Hacc as (removed & Hhistory & Hremoved); [done| | |done|].
  { intros u. rewrite NewFloodControl_requestTimes. constructor. }
  { exists []. rewrite NewFloodControl_requestTimes. by split. }
  pose proof (run_chronological window limit calls userID
                (clockMonotone_app_l _ _ Hmono)) as [Htimes Hsorted].
  fold r in Htimes, Hsorted.
  destruct (evict_split_sorted window now _ Hsorted)
    as (gone & kept & Hts & Hev & Hgone & Hkept).
  rewrite <- (allTimes_fmap_timesOf _ Htimes) in Hev.
  assert (Hrecent : recent = kept).
  { subst recent. rewrite Hhistory, Hts. unfold withinWindow.
    rewrite !filter_app. fold (withinWindow window now removed).
    fold (withinWindow window now gone). fold (withinWindow window now kept).
    rewrite (withinWindow_stale _ _ removed), (withinWindow_stale _ _ gone),
      (withinWindow_fresh _ _ kept); [done..|].
    eapply Forall_impl; [exact Hremoved|]. intros t. by apply stale_later. }
  rewrite Hrecent, Hev. split; [done|].
  unfold Check. rewrite Hw, Hl, Hev, length_fmap.
  destruct (Z.geb_spec (Z.of_nat (length kept)) limit); simpl.
  - by rewrite bool_decide_eq_false_2 by lia.
  - by rewrite bool_decide_eq_true_2 by lia.
Qed.

Lemma sliding_window_decision_witness :
  clockMonotone ([(0, 1); (4, 1); (5, 1); (11, 1)] ++ [(13, 1)]) ∧
  admitted (fst (Check (snd (run (NewFloodControl 10 2)
                               [(0, 1); (4, 1); (5, 1); (11, 1)])) 13 1))
    = false.
Proof.
  assert (Hmono : clockMonotone ([(0, 1); (4, 1); (5, 1); (11, 1)] ++ [(13, 1)])).
  { unfold clockMonotone. simpl. repeat constructor; lia. }
  split; [exact Hmono|].
  destruct (sliding_window_decision 10 2 [(0, 1); (4, 1); (5, 1); (11, 1)]
              13 1 Hmono) as [_ ->].
  reflexivity.
Defined.

(** ** Bursts within one window *)

(** A log with room whose entries are all within the window admits the
    call and gets [now] at the back. *)
Lemma Check_room_fresh (fc : FloodControlImpl) (now : Time) (userID : Z)
    (ts : list Time) :
  requestTimes fc userID = TimeValue <$> ts →
  Z.of_nat (length ts) < maxRequests fc →
  Forall (λ t, time.Sub now t ≤ timeInterval fc) ts →
  Check fc now userID =
    ((true, None),
     setRequests fc
       (<[userID := TimeValue <$> (ts ++ [now])]> (requests fc))).
Proof.
  intros Hlog Hroom Hfresh.
  assert (Hev : evict (timeInterval fc) now (TimeValue <$> ts)
                = (TimeValue <$> ts, true)).
  { destruct Hfresh as [|t ts Ht _]; [done|].
    rewrite fmap_cons. by apply evict_fresh_front, stale_false. }
  unfold Check. rewrite Hlog, Hev, length_fmap.
  destruct (_ >=? _) eqn:Hge.
  - apply Z.geb_le in Hge. lia.
  - by rewrite fmap_app.
Qed.

Lemma burstOutcomes_none (room : nat) : burstOutcomes room 0 = [].
Proof. unfold burstOutcomes. by rewrite Nat.min_0_r. Qed.

Lemma burstOutcomes_full (n : nat) :
  burstOutcomes 0 (S n) = (false, Some ErrLimitExceeded) :: burstOutcomes 0 n.
Proof. unfold burstOutcomes. simpl. by rewrite Nat.sub_0_r. Qed.

Lemma burstOutcomes_room (room n : nat) :
  burstOutcomes (S room) (S n) = (true, None) :: burstOutcomes room n.
Proof. done. Qed.

Lemma callsOf_cons_same (now : Time) (userID : Z) (calls : list call) :
  callsOf userID ((now, userID) :: calls) = now :: callsOf userID calls.
Proof. unfold callsOf. by rewrite filter_cons_True. Qed.

Lemma callsOf_cons_other (now : Time) (other userID : Z) (calls : list call) :
  other ≠ userID →
  callsOf userID ((now, other) :: calls) = callsOf userID calls.
Proof. intros Hne. unfold callsOf. by rewrite filter_cons_False. Qed.

(** A burst on a log of [ts], all calls and entries within the window of
    each call. *)
Lemma burst_from (userID : Z) (calls : list call) :
  ∀ (fc : FloodControlImpl) (ts : list Time),
  requestTimes fc userID = TimeValue <$> ts →
  (∀ t t', t ∈ ts ++ callsOf userID calls → t' ∈ callsOf userID calls →
           time.Sub t' t ≤ timeInterval fc) →
  let room := Z.to_nat (maxRequests fc - Z.of_nat (length ts)) in
  outcomesOf userID (fst (run fc calls))
    = burstOutcomes room (length (callsOf userID calls)) ∧
  requestTimes (snd (run fc calls)) userID
    = TimeValue <$> (ts ++ take room (callsOf userID calls)).
Proof.
  induction calls as [|[now other] calls IH]; intros fc ts Hlog Hnear room.
  - change (callsOf userID []) with (@nil Time).
    cbn [run outcomesOf fst snd length].
    by rewrite burstOutcomes_none, take_nil, app_nil_r.
  - cbn [run outcomesOf fst snd].
    destruct (decide (other = userID)) as [->|Hne].
    + rewrite callsOf_cons_same in *. cbn [length].
      assert (Hfresh : Forall (λ t, time.Sub now t ≤ timeInterval fc) ts).
      { apply Forall_forall. intros t Ht. apply Hnear.
        - apply elem_of_app. by left.
        - by left. }
      destruct (decide (Z.of_nat (length ts) < maxRequests fc)) as [Hroom|Hfull].
      * rewrite (Check_room_fresh fc now userID ts Hlog Hroom Hfresh).
        cbn [fst snd].
        destruct (IH (setRequests fc
            (<[userID := TimeValue <$> (ts ++ [now])]> (requests fc)))
            (ts ++ [now])) as [IHout IHlog].
        { unfold requestTimes. simpl. by rewrite lookup_insert_eq. }
        { intros t t' Ht Ht'. simpl. apply Hnear.
          - by rewrite <- app_assoc in Ht.
          - by right. }
        simpl in IHout, IHlog. rewrite length_app in IHout, IHlog.
        simpl in IHout, IHlog.
        replace room with
          (S (Z.to_nat (maxRequests fc - Z.of_nat (length ts + 1))))
          by (subst room; lia).
        rewrite burstOutcomes_room, IHout, IHlog. split; [done|].
        by rewrite firstn_cons, <- app_assoc.
      * rewrite (Check_full_fresh fc now userID ts Hlog ltac:(lia) Hfresh).
        cbn [fst snd].
        destruct (IH fc ts Hlog) as [IHout IHlog].
        { intros t t' Ht Ht'. apply Hnear.
          - apply elem_of_app in Ht as [Ht|Ht]; apply elem_of_app;
              [by left|right; by right].
          - by right. }
        replace room with 0%nat in * by (subst room; lia).
        simpl in IHout, IHlog.
        replace (Z.to_nat (maxRequests fc - Z.of_nat (length ts)))
          with 0%nat in * by lia.
        rewrite burstOutcomes_full, IHout, IHlog. split; [done|].
        by rewrite !take_0.
    + rewrite callsOf_cons_other in * by done.
      pose proof (IH (snd (Check fc now other)) ts) as IH'.
      rewrite Check_timeInterval, Check_maxRequests in IH'.
      apply IH'; [|done]. by rewrite requestTimes_Check_other.
Qed.

(** X9. A burst: when the calls made on a key that has no entries lie
    within the window of one another, the first [maxRequests] of them are
    admitted and every later one is rejected with the limit error, however
    the calls on other keys are interleaved; the log ends up holding the
    instants of the admitted ones. *)
Theorem burst_within_window
    (fc : FloodControlImpl) (userID : Z) (calls : list call) :
  requestTimes fc userID = [] →
  (∀ t t', t ∈ callsOf userID calls → t' ∈ callsOf userID calls →
           time.Sub t' t ≤ timeInterval fc) →
  let room := Z.to_nat (maxRequests fc) in
  outcomesOf userID (fst (run fc calls))
    = burstOutcomes room (length (callsOf userID calls)) ∧
  requestTimes (snd (run fc calls)) userID
    = TimeValue <$> take room (callsOf userID calls).
Proof.
  intros Hlog Hnear room.
  destruct (burst_from userID calls fc [] Hlog Hnear) as [Hout Hafter].
  simpl in Hout, Hafter. rewrite Z.sub_0_r in Hout, Hafter. by split.
Qed.

Lemma burst_within_window_witness :
  let fc := NewFloodControl 10 2 in
  let calls := [(0, 1); (1, 2); (3, 1); (7, 1); (10, 1)] in
  requestTimes fc 1 = [] ∧
  outcomesOf 1 (fst (run fc calls))
    = [(true, None); (true, None);
       (false, Some ErrLimitExceeded); (false, Some ErrLimitExceeded)].
Proof.
  intros fc calls.
  assert (Hlog : requestTimes fc 1 = []) by reflexivity.
  split; [exact Hlog|].
  destruct (burst_within_window fc 1 calls Hlog) as [Hout _].
  - intros t t' Ht Ht'.
    change (callsOf 1 calls) with [0; 3; 7; 10] in Ht, Ht'.
    repeat (apply elem_of_cons in Ht as [->|Ht]);
      try (by apply elem_of_nil in Ht);
      repeat (apply elem_of_cons in Ht' as [->|Ht']);
      try (by apply elem_of_nil in Ht'); vm_compute; discriminate.
  - exact Hout.
Defined.

(** The next call of a burst: admitted exactly when fewer than
    [maxRequests] calls of the burst came before it. *)
Lemma burst_next (fc : FloodControlImpl) (userID : Z) (calls : list call)
    (now : Time) :
  requestTimes fc userID = [] →
  (∀ t t', t ∈ callsOf userID (calls ++ [(now, userID)]) →
           t' ∈ callsOf userID (calls ++ [(now, userID)]) →
           time.Sub t' t ≤ timeInterval fc) →
  fst (Check (snd (run fc calls)) now userID) =
    if decide (Z.of_nat (length (callsOf userID calls)) < maxRequests fc)
    then (true, None) else (false, Some ErrLimitExceeded).
Proof.
  intros Hlog Hnear.
  assert (Hcalls : callsOf userID (calls ++ [(now, userID)])
                   = callsOf userID calls ++ [now]).
  { unfold callsOf. rewrite filter_app, fmap_app.
    by rewrite filter_cons_True, filter_nil. }
  rewrite Hcalls in Hnear.
  destruct (burst_from userID calls fc [] Hlog) as [_ Hafter].
  { intros t t' Ht Ht'. apply Hnear; apply elem_of_app; by left. }
  simpl in Hafter. rewrite Z.sub_0_r in Hafter.
  set (later := snd (run fc calls)) in *.
  assert (Hconfig : timeInterval later = timeInterval fc ∧
                    maxRequests later = maxRequests fc).
  { subst later. clear. revert fc.
    induction calls as [|c calls IH]; intros fc; [done|].
    cbn [run snd]. destruct (IH (snd (Check fc (fst c) (snd c)))) as [-> ->].
    by rewrite Check_timeInterval, Check_maxRequests. }
  destruct Hconfig as [Hw Hl].
  assert (Hfresh : Forall (λ t, time.Sub now t ≤ timeInterval later)
                     (take (Z.to_nat (maxRequests fc)) (callsOf userID calls))).
  { apply Forall_forall. intros t Ht. rewrite Hw. apply Hnear.
    - apply elem_of_app. left. by eapply subseteq_take.
    - apply elem_of_app. right. by left. }
  pose proof (length_take (callsOf userID calls) (Z.to_nat (maxRequests fc)))
    as Hlen.
  destruct (decide _) as [Hroom|Hfull].
  - rewrite (Check_room_fresh later now userID _ Hafter); [done| |done].
    rewrite Hl. lia.
  - rewrite (Check_full_fresh later now userID _ Hafter); [done| |done].
    rewrite Hl. lia.
Qed.

(** ** The test of the repository *)

(** X10. [TestFloodControlImpl_Check] reports no failure whenever the nine
    instants its calls of [Check] read lie within ten seconds of one
    another: the two users do not disturb each other, user 1 is refused at
    its seventh call and user 2 admitted at its second. *)
Theorem TestFloodControlImpl_Check_passes (clock : nat → Time) :
  (∀ i j, (i < 9)%nat → (j < 9)%nat →
          time.Sub (clock j) (clock i) ≤ 10 * second) →
  TestFloodControlImpl_Check clock = [].
Proof.
  intros Hnear. unfold TestFloodControlImpl_Check.
  change (wrap64 (second * 10)) with (10 * second).
  set (fc := NewFloodControl (10 * second) 5).
  assert (Hburst : ∀ userID (calls : list call) now,
    Forall (λ c : call, ∃ i, (i < 9)%nat ∧ fst c = clock i)
      (calls ++ [(now, userID)]) →
    fst (Check (snd (run fc calls)) now userID) =
      if decide (Z.of_nat (length (callsOf userID calls)) < 5)
      then (true, None) else (false, Some ErrLimitExceeded)).
  { intros userID calls now Hclock.
    assert (Hin : ∀ t, t ∈ callsOf userID (calls ++ [(now, userID)]) →
                  ∃ i, (i < 9)%nat ∧ t = clock i).
    { intros t Ht. unfold callsOf in Ht.
      apply list_elem_of_fmap in Ht as (c & -> & Ht).
      apply list_elem_of_filter in Ht as [_ Ht].
      rewrite Forall_forall in Hclock. by apply Hclock. }
    apply (burst_next fc userID calls now eq_refl).
    intros t t' Ht Ht'.
    destruct (Hin _ Ht) as (i & Hi & ->).
    destruct (Hin _ Ht') as (j & Hj & ->). by apply Hnear. }
  assert (Hsnoc : ∀ (calls : list call) now userID,
    snd (Check (snd (run fc calls)) now userID)
      = snd (run fc (calls ++ [(now, userID)]))).
  { intros calls now userID. by rewrite run_app. }
  assert (Happ : ∀ calls1 calls2 : list call,
    snd (run (snd (run fc calls1)) calls2) = snd (run fc (calls1 ++ calls2))).
  { intros calls1 calls2. by rewrite run_app. }
  cbn zeta. cbn [fmap list_fmap].
  change (Check fc (clock 0%nat) 1)
    with (Check (snd (run fc [])) (clock 0%nat) 1).
  rewrite (Hburst 1 [] (clock 0%nat)), Hsnoc
    by (repeat constructor; eexists; (split; [|reflexivity]); lia).
  cbn [app].
  rewrite (Hburst 2 _ (clock 1%nat)), Hsnoc
    by (repeat constructor; eexists; (split; [|reflexivity]); lia).
  cbn [app]. rewrite Happ. cbn [app].
  rewrite (Hburst 1 _ (clock 7%nat)), Hsnoc
    by (repeat constructor; eexists; (split; [|reflexivity]); lia).
  cbn [app].
  rewrite (Hburst 2 _ (clock 8%nat))
    by (repeat constructor; eexists; (split; [|reflexivity]); lia).
  reflexivity.
Qed.

Lemma TestFloodControlImpl_Check_passes_witness :
  let clock := λ i : nat, 1000 * Z.of_nat i in
  (∀ i j, (i < 9)%nat → (j < 9)%nat →
          time.Sub (clock j) (clock i) ≤ 10 * second) ∧
  TestFloodControlImpl_Check clock = [].
Proof.
  intros clock.
  assert (Hnear : ∀ i j, (i < 9)%nat → (j < 9)%nat →
                  time.Sub (clock j) (clock i) ≤ 10 * second).
  { intros i j Hi Hj. subst clock.
    unfold time.Sub, time.minDuration, time.maxDuration, second. lia. }
  split; [exact Hnear|].
  exact (TestFloodControlImpl_Check_passes clock Hnear).
Defined.

(** * The harness *)

Section HarnessProperties.

Variable Atoi : string → option Z.

Lemma wrap64_exact (z : Z) : - 2 ^ 63 ≤ z < 2 ^ 63 → wrap64 z = z.
Proof. intros Hz. unfold wrap64. rewrite Z.mod_small; lia. Qed.

(** How [startup] reaches the loop. *)
Lemma startup_serving (args : list string) (printed : list line)
    (fc : FloodControlImpl) :
  startup Atoi args = (printed, Serving fc) ↔
  ∃ seconds count N K,
    args !! 1%nat = Some seconds ∧ Atoi seconds = Some N ∧ 0 < N ∧
    args !! 2%nat = Some count ∧ Atoi count = Some K ∧ 0 < K ∧
    printed = (if decide (length args = 3%nat) then [] else [Usage]) ∧
    fc = NewFloodControl (wrap64 (second * N)) K.
Proof.
  unfold startup. split.
  - destruct (args !! 1%nat) as [seconds|]; [|done].
    destruct (Atoi seconds) as [N|] eqn:HN; [|done].
    destruct (Z.leb_spec N 0); [done|].
    destruct (args !! 2%nat) as [count|]; [|done].
    destruct (Atoi count) as [K|] eqn:HK; [|done].
    destruct (Z.leb_spec K 0); [done|].
    intros [= <- <-]. by exists seconds, count, N, K.
  - intros (seconds & count & N & K & -> & -> & HN & -> & -> & HK & -> & ->).
    destruct (Z.leb_spec N 0); [lia|]. by destruct (Z.leb_spec K 0); [lia|].
Qed.

End HarnessProperties.



(** X12. With exactly three arguments and [N] between 1 and 9223372036
    seconds, [main] prints nothing before its loop and the window of its
    limiter is [N] seconds exactly, hence positive. *)
Theorem main_window_is_N_seconds
    (Atoi : string → option Z) (program seconds count : string) (N K : Z) :
  Atoi seconds = Some N →
  Atoi count = Some K →
  0 < N ≤ 9223372036 →
  0 < K →
  startup Atoi [program; seconds; count]
    = ([], Serving (NewFloodControl (N * 1000000000) K)) ∧
  0 < N * 1000000000.
Proof.
  intros HN HK HNrange HKpos. split; [|lia].
  apply startup_serving. exists seconds, count, N, K.
  repeat split; try (done || lia).
  rewrite wrap64_exact by (unfold second; lia).
  unfold second. f_equal. lia.
Qed.

Lemma main_window_is_N_seconds_witness :
  let Atoi := λ s : string,
    if String.eqb s "10" then Some 10
    else if String.eqb s "5" then Some 5 else None in
  startup Atoi ["main"; "10"; "5"]%string
    = ([], Serving (NewFloodControl 10000000000 5)).
Proof.
  intros Atoi.
  destruct (main_window_is_N_seconds Atoi "main" "10" "5" 10 5) as [-> _];
    [reflexivity|reflexivity|lia|lia|reflexivity].
Defined.

(** X13. [main] checks [N > 0] before the multiplication by
    [time.Second], which wraps around: for every [N] from 9223372037 to
    18446744073 seconds it enters its loop with a negative window. *)
Theorem main_window_overflow
    (Atoi : string → option Z) (args : list string)
    (seconds count : string) (N K : Z) :
  args !! 1%nat = Some seconds →
  args !! 2%nat = Some count →
  Atoi seconds = Some N →
  Atoi count = Some K →
  9223372037 ≤ N ≤ 18446744073 →
  0 < K →
  ∃ printed fc,
    startup Atoi args = (printed, Serving fc) ∧
    timeInterval fc = N * 1000000000 - 2 ^ 64 ∧
    timeInterval fc < 0.
Proof.
  intros Hseconds Hcount HN HK HNrange HKpos.
  eexists _, _. split.
  - apply startup_serving. exists seconds, count, N, K.
    repeat split; (done || lia).
  - cbn [timeInterval NewFloodControl].
    assert (Hwrap : wrap64 (second * N) = N * 1000000000 - 2 ^ 64).
    { unfold wrap64, second.
      replace (1000000000 * N + 2 ^ 63)
        with ((N * 1000000000 - 2 ^ 63) + 1 * 2 ^ 64) by lia.
      rewrite Z.mod_add by lia. rewrite Z.mod_small; lia. }
    rewrite Hwrap. lia.
Qed.

Lemma main_window_overflow_witness :
  let Atoi := λ s : string,
    if String.eqb s "9223372037" then Some 9223372037
    else if String.eqb s "5" then Some 5 else None in
  ∃ printed fc,
    startup Atoi ["main"; "9223372037"; "5"]%string = (printed, Serving fc) ∧
    timeInterval fc = 9223372037 * 1000000000 - 2 ^ 64 ∧
    timeInterval fc < 0.
Proof.
  intros Atoi.
  apply (main_window_overflow Atoi _ "9223372037" "5" 9223372037 5);
    (reflexivity || lia).
Defined.

(** X14. A wrong number of arguments does not stop [main]: it prints the
    usage line and goes on.  With fewer than two arguments it panics on
    [args[1]]; with two it panics on [args[2]] exactly when the first one
    is a positive integer; with more than three it proceeds as with the
    first three, after the usage line. *)
Theorem main_wrong_argument_count
    (Atoi : string → option Z) (args : list string) :
  length args ≠ 3%nat →
  (∃ rest, fst (startup Atoi args) = Usage :: rest) ∧
  ((length args < 2)%nat → startup Atoi args = ([Usage], Panicked)) ∧
  (length args = 2%nat →
     (snd (startup Atoi args) = Panicked ↔
      ∃ seconds N, args !! 1%nat = Some seconds ∧
                   Atoi seconds = Some N ∧ 0 < N)) ∧
  ((3 < length args)%nat →
     startup Atoi args =
       (Usage :: fst (startup Atoi (take 3 args)),
        snd (startup Atoi (take 3 args)))).
Proof.
  intros Hcount. split; [|split; [|split]].
  - unfold startup. rewrite decide_False by done.
    destruct (args !! 1%nat) as [seconds|]; [|by eexists].
    destruct (Atoi seconds) as [N|]; [|by eexists].
    destruct (N <=? 0); [by eexists|].
    destruct (args !! 2%nat) as [count|]; [|by eexists].
    destruct (Atoi count) as [K|]; [|by eexists].
    destruct (K <=? 0); by eexists.
  - intros Hshort. unfold startup. rewrite decide_False by done.
    by rewrite (lookup_ge_None_2 args 1) by lia.
  - intros Htwo. unfold startup. rewrite decide_False by done.
    rewrite (lookup_ge_None_2 args 2) by lia.
    destruct (lookup_lt_is_Some_2 args 1 ltac:(lia)) as [seconds ->].
    destruct (Atoi seconds) as [N|] eqn:HN.
    + destruct (Z.leb_spec N 0); cbn [snd]; split; try done.
      * intros (? & N' & [= <-] & HN' & HNpos). rewrite HN in HN'.
        injection HN' as <-. lia.
      * intros _. by exists seconds, N.
    + cbn [snd]. split; [done|].
      intros (? & N' & [= <-] & HN' & _). by rewrite HN in HN'.
  - intros Hlong. unfold startup.
    rewrite decide_False by done.
    rewrite decide_True by (rewrite length_take; lia).
    rewrite !lookup_take_lt by lia.
    destruct (args !! 1%nat) as [seconds|]; [|done].
    destruct (Atoi seconds) as [N|]; [|done].
    destruct (N <=? 0); [done|].
    destruct (args !! 2%nat) as [count|]; [|done].
    destruct (Atoi count) as [K|]; [|done].
    by destruct (K <=? 0).
Qed.

Lemma main_wrong_argument_count_witness :
  let Atoi := λ s : string,
    if String.eqb s "10" then Some 10
    else if String.eqb s "5" then Some 5 else None in
  length ["main"; "10"]%string ≠ 3%nat ∧
  startup Atoi ["main"]%string = ([Usage], Panicked) ∧
  snd (startup Atoi ["main"; "10"]%string) = Panicked.
Proof.
  intros Atoi.
  assert (H1 : length ["main"]%string ≠ 3%nat) by (simpl; lia).
  assert (H2 : length ["main"; "10"]%string ≠ 3%nat) by (simpl; lia).
  split; [exact H2|]. split.
  - destruct (main_wrong_argument_count Atoi ["main"]%string H1)
      as (_ & Hshort & _).
    apply Hshort. simpl. lia.
  - destruct (main_wrong_argument_count Atoi ["main"; "10"]%string H2)
      as (_ & _ & Htwo & _).
    apply Htwo; [reflexivity|].
    exists "10"%string, 10. split; [reflexivity|]. split; [reflexivity|lia].
Defined.

(** X15. With three arguments of which one is not a positive integer,
    [main] prints one of its four error messages and returns: it reads no
    input and never calls [Check].  The seconds are judged first. *)
Theorem main_refuses_bad_arguments
    (Atoi : string → option Z) (program seconds count : string)
    (inputs : list (Time * option Z)) :
  ¬ (∃ N K, Atoi seconds = Some N ∧ 0 < N ∧ Atoi count = Some K ∧ 0 < K) →
  let message :=
    match Atoi seconds, Atoi count with
    | None, _ => SecondsNotInteger
    | Some N, other =>
        if N <=? 0 then SecondsNotPositive
        else match other with
             | None => RequestsNotInteger
             | Some _ => RequestsNotPositive
             end
    end in
  main Atoi [program; seconds; count] inputs = ([message], Returned).
Proof.
  intros Hbad. unfold main, startup. simpl.
  destruct (Atoi seconds) as [N|]; [|done].
  destruct (Z.leb_spec N 0); [done|].
  destruct (Atoi count) as [K|]; [|done].
  destruct (Z.leb_spec K 0); [done|].
  destruct Hbad. by exists N, K.
Qed.

Lemma main_refuses_bad_arguments_witness :
  let Atoi := λ s : string,
    if String.eqb s "10" then Some 10
    else if String.eqb s "0" then Some 0 else None in
  main Atoi ["main"; "10"; "0"]%string [(5, Some 1)]
    = ([RequestsNotPositive], Returned).
Proof.
  intros Atoi.
  apply (main_refuses_bad_arguments Atoi "main" "10" "0" [(5, Some 1)]).
  intros (N & K & [= <-] & _ & [= <-] & HK). lia.
Defined.

Lemma callsOf_app (userID : Z) (calls1 calls2 : list call) :
  callsOf userID (calls1 ++ calls2)
    = callsOf userID calls1 ++ callsOf userID calls2.
Proof. unfold callsOf. by rewrite filter_app, fmap_app. Qed.

Lemma callsOf_unreadable (inputs : list (Time * option Z)) :
  Forall (λ i, snd i = None) inputs →
  callsOf 0 (turn <$> inputs) = fst <$> inputs.
Proof.
  induction 1 as [|[now scanned] inputs Hnone _ IH]; [done|].
  simpl in Hnone. subst scanned. rewrite !fmap_cons.
  unfold turn at 1. cbn [fst snd default from_option id].
  by rewrite callsOf_cons_same, IH.
Qed.

(** X16. In the loop of [main] an input that [fmt.Scan] cannot read is a
    request of user 0: after at least [maxRequests] such inputs, a request
    that user 0 really makes is refused with the limit error, when all of
    them lie within the window of one another. *)
Theorem main_unreadable_input_is_user_0
    (Atoi : string → option Z) (args : list string) (printed : list line)
    (fc : FloodControlImpl) (inputs : list (Time * option Z)) (now : Time) :
  startup Atoi args = (printed, Serving fc) →
  Forall (λ i, snd i = None) inputs →
  maxRequests fc ≤ Z.of_nat (length inputs) →
  (∀ t t', t ∈ (fst <$> inputs) ++ [now] → t' ∈ (fst <$> inputs) ++ [now] →
           time.Sub t' t ≤ timeInterval fc) →
  last (fst (main Atoi args (inputs ++ [(now, Some 0)])))
    = Some (Outcome (false, Some ErrLimitExceeded)).
Proof.
  intros Hstart Hnone Hmany Hnear.
  assert (Hnew : requestTimes fc 0 = []).
  { apply startup_serving in Hstart
      as (? & ? & N & K & _ & _ & _ & _ & _ & _ & _ & ->).
    apply NewFloodControl_requestTimes. }
  unfold main. rewrite Hstart. cbn [fst].
  rewrite fmap_app, run_app. cbn [fst].
  rewrite fmap_app, app_assoc, fmap_cons. cbn [run fst snd fmap list_fmap].
  rewrite last_snoc. do 2 f_equal.
  unfold turn at 2 3. cbn [fst snd default from_option id].
  rewrite (burst_next fc 0 (turn <$> inputs) now Hnew).
  - rewrite callsOf_unreadable, length_fmap by done.
    by rewrite decide_False by lia.
  - intros t t'.
    rewrite callsOf_app, callsOf_unreadable, callsOf_cons_same by done.
    apply Hnear.
Qed.

Lemma main_unreadable_input_is_user_0_witness :
  let Atoi := λ s : string,
    if String.eqb s "10" then Some 10
    else if String.eqb s "2" then Some 2 else None in
  last (fst (main Atoi ["main"; "10"; "2"]%string
               ([(0, None); (1, None)] ++ [(2, Some 0)])))
    = Some (Outcome (false, Some ErrLimitExceeded)).
Proof.
  intros Atoi.
  apply (main_unreadable_input_is_user_0 Atoi _ []
           (NewFloodControl 10000000000 2)).
  - reflexivity.
  - repeat constructor.
  - simpl. lia.
  - intros t t' Ht Ht'. simpl in Ht, Ht'.
    repeat (apply elem_of_cons in Ht as [->|Ht]);
      try (by apply elem_of_nil in Ht);
      repeat (apply elem_of_cons in Ht' as [->|Ht']);
      try (by apply elem_of_nil in Ht'); vm_compute; discriminate.
Defined.
